(** * Tag-all bot: member store, membership tracker and mention responder

    A shallow embedding of [main.py].  The handlers are written in a small
    state-and-exception monad over a [World] that holds the content of the
    backing file [members.json], the number of platform calls made so far
    and the trace of what the handler did (file accesses, platform queries,
    delivered replies, log records, sleeps).  The platform is an [Env]: the
    bot's handle, the administrators of each chat, and the platform calls
    that fail.

    Strings are sequences of one-byte characters, read as the code points
    0..255; [len], [lower], [rstrip], [in] and [str.join] are modelled on
    that range.  A Python [dict] is an insertion-ordered association list
    with unique keys.  [json.dump(_, indent=4)] and [json.load] follow
    CPython's [json] module on documents of the registry shape, an object
    whose values are arrays of strings; the decoder rejects every other
    document, and escapes for code points above 255.  Writing the file
    always succeeds.  An [Update] is an update that carries a message, with
    its sender; a [RawUpdate] is an update as the handler receives it, with
    or without a message. *)

From Stdlib Require Import String Ascii List ZArith NArith Bool Arith Lia.
From Stdlib Require Import DecimalString.
Import ListNotations.
Local Open Scope string_scope.
Local Open Scope list_scope.

Infix "+++" := String.append (right associativity, at level 60).

(* ------------------------------------------------------------------ *)
(** ** Python strings *)

Module PyStr.

Definition nl : ascii := "010"%char.
Definition dq : ascii := "034"%char.

(** A one-character string. *)
Definition chr (c : ascii) : string := String c EmptyString.

(** [len(s)] *)
Definition len (s : string) : nat := String.length s.

(** [bool(s)]: a string is truthy when it is not empty. *)
Definition nonempty (s : string) : bool :=
  match s with EmptyString => false | String _ _ => true end.

(** Truthiness of an optional string ([None] and [""] are falsy). *)
Definition truthy (o : option string) : bool :=
  match o with None => false | Some s => nonempty s end.

(** [c.isspace()] for a code point below 256. *)
Definition isspace (c : ascii) : bool :=
  let n := N_of_ascii c in
  (((9 <=? n) && (n <=? 13)) || ((28 <=? n) && (n <=? 32))
   || (n =? 133) || (n =? 160))%N.

(** [c.lower()] for a code point below 256: the ASCII capitals and the
    Latin-1 capitals (all of 192..222 but the multiplication sign 215). *)
Definition lower_char (c : ascii) : ascii :=
  let n := N_of_ascii c in
  if (((65 <=? n) && (n <=? 90))
      || ((192 <=? n) && (n <=? 222) && negb (n =? 215)))%N
  then ascii_of_N (n + 32) else c.

(** [s.lower()] *)
Fixpoint lower (s : string) : string :=
  match s with
  | EmptyString => EmptyString
  | String c r => String (lower_char c) (lower r)
  end.

(** [s.rstrip()]: drop the trailing run of whitespace. *)
Fixpoint rstrip (s : string) : string :=
  match s with
  | EmptyString => EmptyString
  | String c r =>
      match rstrip r with
      | EmptyString => if isspace c then EmptyString else chr c
      | r' => String c r'
      end
  end.

(** [needle in hay] *)
Fixpoint contains (needle hay : string) : bool :=
  String.prefix needle hay ||
  match hay with
  | EmptyString => false
  | String _ r => contains needle r
  end.

(** [sep.join(l)] *)
Definition join (sep : string) (l : list string) : string :=
  String.concat sep l.

(** [str(n)] for an integer. *)
Definition str_of_int (z : Z) : string :=
  NilZero.string_of_int (Z.to_int z).

(** [x in l] for a list of strings. *)
Definition mem (x : string) (l : list string) : bool :=
  existsb (String.eqb x) l.

End PyStr.

Import PyStr.

(* ------------------------------------------------------------------ *)
(** ** Python dictionaries from strings to lists of strings *)

Definition dict : Type := list (string * list string).

(** [d.get(k)], the first (and, in a well-formed dict, only) binding. *)
Fixpoint dict_get (d : dict) (k : string) : option (list string) :=
  match d with
  | [] => None
  | (k', v) :: r => if String.eqb k' k then Some v else dict_get r k
  end.

(** [k in d] *)
Definition dict_mem (d : dict) (k : string) : bool :=
  match dict_get d k with Some _ => true | None => false end.

(** [d[k] = v]: an existing key keeps its position, a new key goes last. *)
Fixpoint dict_set (d : dict) (k : string) (v : list string) : dict :=
  match d with
  | [] => [(k, v)]
  | (k', v') :: r =>
      if String.eqb k' k then (k', v) :: r else (k', v') :: dict_set r k v
  end.

(** [d.get(k, [])] *)
Definition dict_get_default (d : dict) (k : string) : list string :=
  match dict_get d k with Some v => v | None => [] end.

(** The keys of a dict are pairwise distinct. *)
Definition dict_wf (d : dict) : Prop := NoDup (map fst d).

(* ------------------------------------------------------------------ *)
(** ** The [json] module on registry documents *)

Module Json.

(** *** Encoder: [json.dumps(d, indent=4)], with [ensure_ascii] on *)

Definition hexdigit (n : N) : ascii :=
  if (n <? 10)%N then ascii_of_N (48 + n) else ascii_of_N (87 + n).

(** One character inside a JSON string: the short escapes, [\u00xx]
    for the other characters outside the printable ASCII range. *)
Definition escape_char (c : ascii) : string :=
  let n := N_of_ascii c in
  if (n =? 34)%N then String "\" (chr dq)
  else if (n =? 92)%N then "\\"
  else if (n =? 10)%N then "\n"
  else if (n =? 13)%N then "\r"
  else if (n =? 9)%N then "\t"
  else if (n =? 8)%N then "\b"
  else if (n =? 12)%N then "\f"
  else if ((n <? 32) || (126 <? n))%N
       then "\u00" +++ String (hexdigit (n / 16)) (chr (hexdigit (n mod 16)))
  else chr c.

Fixpoint escape (s : string) : string :=
  match s with
  | EmptyString => EmptyString
  | String c r => escape_char c +++ escape r
  end.

Definition encode_str (s : string) : string :=
  String dq (escape s +++ chr dq).

(** Newline followed by one, respectively two, levels of indentation. *)
Definition nl4 : string := String nl "    ".
Definition nl8 : string := String nl "        ".

Definition encode_list (l : list string) : string :=
  match l with
  | [] => "[]"
  | _ => "[" +++ nl8 +++ join ("," +++ nl8) (map encode_str l) +++ nl4 +++ "]"
  end.

Definition encode_entry (kv : string * list string) : string :=
  encode_str (fst kv) +++ ": " +++ encode_list (snd kv).

Definition dumps (d : dict) : string :=
  match d with
  | [] => "{}"
  | _ => "{" +++ nl4 +++ join ("," +++ nl4) (map encode_entry d)
             +++ chr nl +++ "}"
  end.

(** *** Decoder: [json.loads]

    The scanner reads the document one character at a time.  A document
    that is not valid JSON, or not of the registry shape, or that holds an
    escape for a code point above 255, is rejected. *)

(** Scanner state inside a string literal. *)
Inductive sstate : Type :=
| SPlain
| SBack
| SHex (k : nat) (v : N).

Inductive sres : Type :=
| SEmit (c : ascii)
| SMore (st : sstate)
| SClose
| SErr.

Definition isws (c : ascii) : bool :=
  let n := N_of_ascii c in
  ((n =? 32) || (n =? 9) || (n =? 10) || (n =? 13))%N.

Definition hexval (c : ascii) : option N :=
  let n := N_of_ascii c in
  if ((48 <=? n) && (n <=? 57))%N then Some (n - 48)%N
  else if ((97 <=? n) && (n <=? 102))%N then Some (n - 87)%N
  else if ((65 <=? n) && (n <=? 70))%N then Some (n - 55)%N
  else None.

(** The character after a backslash, [u] apart. *)
Definition unescape (c : ascii) : option ascii :=
  let n := N_of_ascii c in
  if (n =? 34)%N then Some dq
  else if (n =? 92)%N then Some "\"%char
  else if (n =? 47)%N then Some "/"%char
  else if (n =? 98)%N then Some "008"%char
  else if (n =? 102)%N then Some "012"%char
  else if (n =? 110)%N then Some "010"%char
  else if (n =? 114)%N then Some "013"%char
  else if (n =? 116)%N then Some "009"%char
  else None.

Definition sstep (st : sstate) (c : ascii) : sres :=
  match st with
  | SPlain =>
      if Ascii.eqb c dq then SClose
      else if Ascii.eqb c "\" then SMore SBack
      else if (N_of_ascii c <? 32)%N then SErr
      else SEmit c
  | SBack =>
      if Ascii.eqb c "u" then SMore (SHex 0 0)
      else match unescape c with Some a => SEmit a | None => SErr end
  | SHex k v =>
      match hexval c with
      | None => SErr
      | Some h =>
          let v' := (16 * v + h)%N in
          match k with
          | 3 => if (v' <? 256)%N then SEmit (ascii_of_N v') else SErr
          | _ => SMore (SHex (S k) v')
          end
      end
  end.

(** Parser state: where in the document the scanner is, with the entries,
    the key and the array items read so far. *)
Inductive pstate : Type :=
| PStart
| PObjOpen
| PKey (d : dict) (acc : string) (st : sstate)
| PColon (d : dict) (k : string)
| PValue (d : dict) (k : string)
| PArrOpen (d : dict) (k : string)
| PItem (d : dict) (k : string) (items : list string) (acc : string)
        (st : sstate)
| PItemEnd (d : dict) (k : string) (items : list string)
| PItemNext (d : dict) (k : string) (items : list string)
| PEntryEnd (d : dict)
| PEntryNext (d : dict)
| PDone (d : dict).

Definition step (p : pstate) (c : ascii) : option pstate :=
  match p with
  | PStart =>
      if isws c then Some p
      else if Ascii.eqb c "{" then Some PObjOpen else None
  | PObjOpen =>
      if isws c then Some p
      else if Ascii.eqb c dq then Some (PKey [] "" SPlain)
      else if Ascii.eqb c "}" then Some (PDone []) else None
  | PKey d acc st =>
      match sstep st c with
      | SEmit a => Some (PKey d (acc +++ chr a) SPlain)
      | SMore st' => Some (PKey d acc st')
      | SClose => Some (PColon d acc)
      | SErr => None
      end
  | PColon d k =>
      if isws c then Some p
      else if Ascii.eqb c ":" then Some (PValue d k) else None
  | PValue d k =>
      if isws c then Some p
      else if Ascii.eqb c "[" then Some (PArrOpen d k) else None
  | PArrOpen d k =>
      if isws c then Some p
      else if Ascii.eqb c dq then Some (PItem d k [] "" SPlain)
      else if Ascii.eqb c "]" then Some (PEntryEnd (dict_set d k []))
      else None
  | PItem d k items acc st =>
      match sstep st c with
      | SEmit a => Some (PItem d k items (acc +++ chr a) SPlain)
      | SMore st' => Some (PItem d k items acc st')
      | SClose => Some (PItemEnd d k (items ++ [acc]))
      | SErr => None
      end
  | PItemEnd d k items =>
      if isws c then Some p
      else if Ascii.eqb c "," then Some (PItemNext d k items)
      else if Ascii.eqb c "]" then Some (PEntryEnd (dict_set d k items))
      else None
  | PItemNext d k items =>
      if isws c then Some p
      else if Ascii.eqb c dq then Some (PItem d k items "" SPlain)
      else None
  | PEntryEnd d =>
      if isws c then Some p
      else if Ascii.eqb c "," then Some (PEntryNext d)
      else if Ascii.eqb c "}" then Some (PDone d) else None
  | PEntryNext d =>
      if isws c then Some p
      else if Ascii.eqb c dq then Some (PKey d "" SPlain) else None
  | PDone d => if isws c then Some p else None
  end.

Fixpoint run (p : pstate) (s : string) : option pstate :=
  match s with
  | EmptyString => Some p
  | String c r =>
      match step p c with
      | Some p' => run p' r
      | None => None
      end
  end.

(** The entries stored so far. *)
Definition entries (p : pstate) : dict :=
  match p with
  | PStart | PObjOpen => []
  | PKey d _ _ | PColon d _ | PValue d _ | PArrOpen d _ | PItem d _ _ _ _
  | PItemEnd d _ _ | PItemNext d _ _ | PEntryEnd d | PEntryNext d
  | PDone d => d
  end.

(** Storing one entry of an object: what closing its array does. *)
Definition put (d : dict) (kv : string * list string) : dict :=
  dict_set d (fst kv) (snd kv).

Definition loads (s : string) : option dict :=
  match run PStart s with
  | Some (PDone d) => Some d
  | _ => None
  end.

End Json.

(* ------------------------------------------------------------------ *)
(** ** Platform objects read by the handlers *)

Record User : Type := {
  username : option string;
  is_bot : bool
}.

Record Chat : Type := {
  chat_id : Z;             (* [chat.id] *)
  chat_type : string       (* [chat.type] *)
}.

Record Message : Type := {
  chat : Chat;
  from_user : User;
  text : option string;
  message_id : Z;
  message_thread_id : option Z;
  is_topic_message : bool
}.

Record Update : Type := { message : Message }.

Record ChatMember : Type := { user : User }.

(** The string held by an optional attribute that has passed a truthiness
    test. *)
Definition handle (o : option string) : string :=
  match o with Some s => s | None => "" end.

(* ------------------------------------------------------------------ *)
(** ** World, events and the handler monad *)

Inductive level : Type := INFO | ERROR.

Record Reply : Type := {
  body : string;
  reply_to_message_id : Z;
  reply_thread_id : option Z
}.

Inductive event : Type :=
| EvTrack                          (* marker: [track_members] was entered *)
| EvRead                           (* [members.json] opened for reading *)
| EvWrite (content : string)       (* [members.json] rewritten *)
| EvAdmins (c : Z)                 (* administrators of a chat fetched *)
| EvReply (r : Reply)              (* a reply delivered by the platform *)
| EvSleep (seconds : nat)
| EvLog (lv : level) (msg : string).

Record World : Type := {
  fs : option string;      (* content of [members.json]; [None]: no file *)
  api_calls : nat;         (* platform calls made so far *)
  trace : list event       (* oldest first *)
}.

(** The platform as the handlers see it: the bot's handle, the
    administrators of each chat, and for each platform call (numbered from
    0) the error it fails with, if any. *)
Record Env : Type := {
  bot_username : string;
  administrators : Z -> list ChatMember;
  fault : nat -> option string
}.

Inductive exn : Type :=
| TelegramError (msg : string)
| JSONDecodeError.

Inductive outcome (A : Type) : Type :=
| Ret (a : A)
| Raise (e : exn).
Arguments Ret {A} a.
Arguments Raise {A} e.

Definition M (A : Type) : Type := World -> outcome A * World.

Definition ret {A} (a : A) : M A := fun w => (Ret a, w).

Definition bind {A B} (c : M A) (k : A -> M B) : M B :=
  fun w =>
    match c w with
    | (Ret a, w') => k a w'
    | (Raise e, w') => (Raise e, w')
    end.

Notation "x <- c ;; k" := (bind c (fun x => k))
  (at level 61, c at next level, right associativity).
Notation "c ;; k" := (bind c (fun _ => k))
  (at level 61, right associativity).

(** [try: c  except TelegramError as e: h e] *)
Definition try_telegram {A} (c : M A) (h : string -> M A) : M A :=
  fun w =>
    match c w with
    | (Raise (TelegramError e), w') => h e w'
    | r => r
    end.

Definition emit (e : event) : M unit :=
  fun w => (Ret tt, {| fs := fs w; api_calls := api_calls w;
                       trace := trace w ++ [e] |}).

(** A platform call: it takes the next call number and fails when the
    platform has a fault for that number. *)
Definition api_call (env : Env) : M unit :=
  fun w =>
    let w' := {| fs := fs w; api_calls := S (api_calls w);
                 trace := trace w |} in
    match fault env (api_calls w) with
    | Some e => (Raise (TelegramError e), w')
    | None => (Ret tt, w')
    end.

(** [message.reply_text(text, reply_to_message_id=..., message_thread_id=...)] *)
Definition reply_text (env : Env) (text : string) (reply_to : Z)
    (thread : option Z) : M unit :=
  api_call env ;;
  emit (EvReply {| body := text; reply_to_message_id := reply_to;
                   reply_thread_id := thread |}).

(** [context.bot.get_chat_administrators(chat.id)] *)
Definition get_chat_administrators (env : Env) (c : Z) : M (list ChatMember) :=
  api_call env ;;
  emit (EvAdmins c) ;;
  ret (administrators env c).

(** [asyncio.sleep(n)] *)
Definition sleep (n : nat) : M unit := emit (EvSleep n).

Definition logger_info (msg : string) : M unit := emit (EvLog INFO msg).
Definition logger_error (msg : string) : M unit := emit (EvLog ERROR msg).

(* ------------------------------------------------------------------ *)
(** ** Member store *)

Definition load_members : M dict :=
  emit EvRead ;;
  fun w =>
    match fs w with
    | None => (Ret [], w)                       (* FileNotFoundError *)
    | Some s =>
        match Json.loads s with
        | Some d => (Ret d, w)
        | None => (Raise JSONDecodeError, w)
        end
    end.

Definition save_members (members : dict) : M unit :=
  fun w =>
    let content := Json.dumps members in
    (Ret tt, {| fs := Some content; api_calls := api_calls w;
                trace := trace w ++ [EvWrite content] |}).

(* ------------------------------------------------------------------ *)
(** ** Membership tracker *)

Definition in_group (c : Chat) : bool :=
  mem (chat_type c) ["group"; "supergroup"].

Definition track_members (update : Update) : M unit :=
  emit EvTrack ;;
  let message := message update in
  let chat := chat message in
  let user := from_user message in
  if in_group chat && truthy (username user) && negb (is_bot user) then
    members <- load_members ;;
    let cid := str_of_int (chat_id chat) in
    let members :=
      if negb (dict_mem members cid) then dict_set members cid [] else members in
    let name := handle (username user) in
    if negb (mem name (dict_get_default members cid)) then
      let members :=
        dict_set members cid (dict_get_default members cid ++ [name]) in
      save_members members ;;
      logger_info ("Added @" +++ name +++ " to members list for chat " +++ cid)
    else ret tt
  else ret tt.

(* ------------------------------------------------------------------ *)
(** ** Mention responder *)

Definition max_length : nat := 4000.

Definition no_members_notice : string :=
  "No members or admins with usernames found to tag! Users must send a message to be included.".

Definition failure_notice : string :=
  "Sorry, I couldn't tag everyone. Please ensure I'm an admin and try again.".

(** [[f"@{username}" for username in stored if username != bot_username]] *)
Fixpoint tag_members (stored : list string) (bot : string) : list string :=
  match stored with
  | [] => []
  | username :: rest =>
      if negb (String.eqb username bot)
      then ("@" +++ username) :: tag_members rest bot
      else tag_members rest bot
  end.

(** [[f"@{admin.user.username}" for admin in admins
       if not admin.user.is_bot and admin.user.username
          and admin.user.username != bot_username]] *)
Fixpoint tag_admins (admins : list ChatMember) (bot : string) : list string :=
  match admins with
  | [] => []
  | admin :: rest =>
      if negb (is_bot (user admin)) && truthy (username (user admin))
         && negb (String.eqb (handle (username (user admin))) bot)
      then ("@" +++ handle (username (user admin))) :: tag_admins rest bot
      else tag_admins rest bot
  end.

(** One turn of the packing loop over [(parts, current_part)]. *)
Definition split_step (st : list string * string) (tag : string)
    : list string * string :=
  let '(parts, current_part) := st in
  if (len current_part + len tag + 1 <=? max_length)%nat
  then (parts, current_part +++ tag +++ chr nl)
  else (parts ++ [rstrip current_part], tag +++ chr nl).

(** The parts a long tag list is sent in. *)
Definition split_parts (tagged_members : list string) : list string :=
  let '(parts, current_part) := fold_left split_step tagged_members ([], "") in
  if nonempty current_part then parts ++ [rstrip current_part] else parts.

(** The thread a reply goes to. *)
Definition thread_of (m : Message) : option Z :=
  if is_topic_message m then message_thread_id m else None.

Definition reply (env : Env) (m : Message) (text : string) : M unit :=
  reply_text env text (message_id m) (thread_of m).

Fixpoint send_parts (env : Env) (m : Message) (parts : list string) : M unit :=
  match parts with
  | [] => ret tt
  | part :: rest =>
      reply env m part ;;
      sleep 1 ;;
      send_parts env m rest
  end.

Definition is_nil {A} (l : list A) : bool :=
  match l with [] => true | _ => false end.

(** The tag list of a response: the stored members, or the administrators
    when no member is stored; [None] when the handler has sent the notice
    and returned. *)
Definition choose_tags (env : Env) (m : Message) : M (option (list string)) :=
  let bot := bot_username env in
  members <- load_members ;;
  let cid := str_of_int (chat_id (chat m)) in
  let tagged_members := tag_members (dict_get_default members cid) bot in
  if is_nil tagged_members then
    admins <- get_chat_administrators env (chat_id (chat m)) ;;
    let tagged_members := tag_admins admins bot in
    if is_nil tagged_members then
      reply env m no_members_notice ;;
      ret None
    else ret (Some tagged_members)
  else ret (Some tagged_members).

(** Lines 80 to 113: format, send in one or several replies, log. *)
Definition send_tags (env : Env) (m : Message) (tagged_members : list string)
    : M unit :=
  let tagged_message := join (chr nl) tagged_members in
  (if (max_length <? len tagged_message)%nat
   then send_parts env m (split_parts tagged_members)
   else reply env m tagged_message) ;;
  logger_info ("Tagged " +++ str_of_int (Z.of_nat (length tagged_members))
               +++ " members in chat " +++ str_of_int (chat_id (chat m))).

(** The body of the [try] block. *)
Definition respond (env : Env) (m : Message) : M unit :=
  r <- choose_tags env m ;;
  match r with
  | None => ret tt
  | Some tagged_members => send_tags env m tagged_members
  end.

(** The [except TelegramError] block. *)
Definition on_telegram_error (env : Env) (m : Message) (e : string) : M unit :=
  logger_error ("Error tagging members: " +++ e) ;;
  reply env m failure_notice.

(** [bot_username.lower() in message.text.lower()] *)
Definition mentions (bot : string) (txt : string) : bool :=
  contains (lower bot) (lower txt).

Definition tag_all (env : Env) (update : Update) : M unit :=
  let message := message update in
  let chat := chat message in
  if in_group chat && truthy (text message) then
    let bot_username := bot_username env in
    if mentions bot_username (handle (text message)) then
      try_telegram (respond env message) (on_telegram_error env message)
    else track_members update
  else ret tt.

(** Handling a sequence of updates, stopping at the first exception. *)
Fixpoint handle_all (h : Update -> M unit) (us : list Update) : M unit :=
  match us with
  | [] => ret tt
  | u :: rest => h u ;; handle_all h rest
  end.

(* ------------------------------------------------------------------ *)
(** ** Reading worlds and traces *)

(** The registry the backing file holds: empty when there is no file,
    undefined when the file does not decode. *)
Definition stored (w : World) : option dict :=
  match fs w with
  | None => Some []
  | Some s => Json.loads s
  end.

(** The world after some more events. *)
Definition after (w : World) (evs : list event) : World :=
  {| fs := fs w; api_calls := api_calls w; trace := trace w ++ evs |}.

(** The reply to message [m] with body [t]. *)
Definition reply_of (m : Message) (t : string) : Reply :=
  {| body := t; reply_to_message_id := message_id m;
     reply_thread_id := thread_of m |}.

(** The bodies of the replies delivered in a trace, oldest first. *)
Fixpoint replies (evs : list event) : list string :=
  match evs with
  | [] => []
  | EvReply r :: rest => body r :: replies rest
  | _ :: rest => replies rest
  end.

(** The platform never fails. *)
Definition reliable (env : Env) : Prop := forall n, fault env n = None.

(** No list of the registry holds a username twice. *)
Definition lists_nodup (d : dict) : Prop :=
  Forall (fun kv => NoDup (snd kv)) d.

(** The backing file is absent or decodes to a registry without
    duplicates. *)
Definition store_ok (w : World) : Prop :=
  exists R, stored w = Some R /\ lists_nodup R.

(** The preconditions of tracking, as [track_members] tests them. *)
Definition trackable (u : Update) : bool :=
  let m := message u in
  in_group (chat m) && truthy (username (from_user m))
  && negb (is_bot (from_user m)).

(** The registry once [name] has been appended to the list of chat [cid]. *)
Definition with_member (R : dict) (cid name : string) : dict :=
  dict_set R cid (dict_get_default R cid ++ [name]).

(** The tag list a response is built from when the administrator query is
    answered: the stored members, or the administrators when that list is
    empty. *)
Definition response_tags (env : Env) (R : dict) (m : Message) : list string :=
  let bot := bot_username env in
  let tagged_members :=
    tag_members (dict_get_default R (str_of_int (chat_id (chat m)))) bot in
  if is_nil tagged_members
  then tag_admins (administrators env (chat_id (chat m))) bot
  else tagged_members.

(** The last character of a string. *)
Fixpoint last_char (s : string) : option ascii :=
  match s with
  | EmptyString => None
  | String c r =>
      match r with
      | EmptyString => Some c
      | String _ _ => last_char r
      end
  end.

(** The string ends in a character that is not whitespace. *)
Definition tidy (t : string) : bool :=
  match last_char t with
  | Some c => negb (isspace c)
  | None => false
  end.

(** An entry the packing loop handles as intended: it ends in a character
    that is not whitespace and, with its separator, fits in one part. *)
Definition fits (t : string) : Prop :=
  tidy t = true /\ len t < max_length.

(** The running part after the entries of [g]: each entry followed by a
    newline. *)
Fixpoint lines (g : list string) : string :=
  match g with
  | [] => ""
  | t :: r => t +++ chr nl +++ lines r
  end.

(** [fits], as a test. *)
Definition fitsb (t : string) : bool :=
  tidy t && (len t <? max_length)%nat.

(** A group of entries sent as one part. *)
Definition chunk (g : list string) : Prop :=
  g <> [] /\ len (join (chr nl) g) <= max_length.

(** The update is a text message in a group or supergroup whose text
    contains the bot's handle, whatever the letter case. *)
Definition is_mention (env : Env) (u : Update) : Prop :=
  in_group (chat (message u)) = true /\
  truthy (text (message u)) = true /\
  mentions (bot_username env) (handle (text (message u))) = true.

(** The events of sending the parts of a long response. *)
Definition part_events (m : Message) (parts : list string) : list event :=
  flat_map (fun p => [EvReply (reply_of m p); EvSleep 1]) parts.

(** The log record that closes a successful response. *)
Definition tagged_log (m : Message) (tags : list string) : event :=
  EvLog INFO ("Tagged " +++ str_of_int (Z.of_nat (length tags))
              +++ " members in chat " +++ str_of_int (chat_id (chat m))).

(** Events that neither enter the tracker nor write the file. *)
Definition passive (e : event) : bool :=
  match e with
  | EvTrack | EvWrite _ => false
  | _ => true
  end.

(** A computation that leaves the file alone, only adds passive events to
    the trace, never lowers the call count, and raises a platform error
    only as the error of the last platform call it made. *)
Definition tame (env : Env) {A} (c : M A) : Prop :=
  forall w,
    fs (snd (c w)) = fs w /\
    api_calls w <= api_calls (snd (c w)) /\
    (exists evs, trace (snd (c w)) = trace w ++ evs /\
                 forallb passive evs = true) /\
    (forall e, fst (c w) = Raise (TelegramError e) ->
               api_calls w < api_calls (snd (c w)) /\
               fault env (pred (api_calls (snd (c w)))) = Some e).

(** Letter case, written from the words "differs only in letter case",
    to be compared with [lower]: the capital letters among the code points
    below 256, each 32 below its small letter. *)
Definition capital (c : ascii) : bool :=
  let n := N_of_ascii c in
  (((65 <=? n) && (n <=? 90))
   || ((192 <=? n) && (n <=? 222) && negb (n =? 215)))%N.

(** The same character, or the same letter in the other case. *)
Definition same_letter (a b : ascii) : Prop :=
  a = b \/
  (capital a = true /\ N_of_ascii b = (N_of_ascii a + 32)%N) \/
  (capital b = true /\ N_of_ascii a = (N_of_ascii b + 32)%N).

(** Two strings that differ at most in the case of their letters. *)
Inductive same_up_to_case : string -> string -> Prop :=
| same_empty : same_up_to_case "" ""
| same_String (a b : ascii) (s t : string) :
    same_letter a b -> same_up_to_case s t ->
    same_up_to_case (String a s) (String b t).

(* ------------------------------------------------------------------ *)
(** ** Sample data *)

Definition sample_registry : dict := [("123", ["alice"; "bob"; "carol"])].

Definition two_chats : dict :=
  [("123", ["alice"; "bob"; "carol"]); ("-1001", [])].

Definition dave_admin : ChatMember :=
  {| user := {| username := Some "dave"; is_bot := false |} |}.

Definition bot_admin (o : option string) : ChatMember :=
  {| user := {| username := o; is_bot := true |} |}.

Definition anonymous_admin : ChatMember :=
  {| user := {| username := None; is_bot := false |} |}.

Definition empty_world : World :=
  {| fs := None; api_calls := 0; trace := [] |}.

Definition sample_world : World :=
  {| fs := Some (Json.dumps sample_registry); api_calls := 0; trace := [] |}.

Definition sample_chat : Chat := {| chat_id := 123; chat_type := "group" |}.

Definition dan : User := {| username := Some "dan"; is_bot := false |}.

Definition sample_message (from : User) (txt : string) : Update :=
  {| message := {| chat := sample_chat; from_user := from; text := Some txt;
                   message_id := 7; message_thread_id := None;
                   is_topic_message := false |} |}.

Definition sample_env : Env :=
  {| bot_username := "mybot"; administrators := fun _ => [];
     fault := fun _ => None |}.

Definition admins_env : Env :=
  {| bot_username := "mybot";
     administrators :=
       fun _ => [dave_admin; bot_admin (Some "helperbot"); anonymous_admin];
     fault := fun _ => None |}.

Definition member_name (n : nat) : string :=
  "member_" +++ str_of_int (Z.of_nat n).

Definition many_members : list string := map member_name (seq 0 400).

Definition world_of (R : dict) : World :=
  {| fs := Some (Json.dumps R); api_calls := 0; trace := [] |}.

(** Four hundred members: a tag list of 4689 characters. *)
Definition crowded_registry : dict := [("123", many_members)].

Fixpoint replicate (n : nat) (c : ascii) : string :=
  match n with
  | 0 => ""
  | S k => String c (replicate k c)
  end.

(** A short handle and one of 4000 characters. *)
Definition long_registry : dict := [("123", ["a"; replicate 4000 "b"])].

(** Four hundred members and a handle that ends in a space. *)
Definition spaced_registry : dict := [("123", many_members ++ ["zed "])].

(** A platform on which every call fails. *)
Definition refusing_env : Env :=
  {| bot_username := "mybot"; administrators := fun _ => [];
     fault := fun _ => Some "Forbidden" |}.

(** A platform on which the first call alone fails. *)
Definition hiccup_env : Env :=
  {| bot_username := "mybot"; administrators := fun _ => [];
     fault := fun n => match n with 0 => Some "Timed out" | _ => None end |}.

(* ------------------------------------------------------------------ *)
(** ** Vocabulary for further properties *)

(** Every event a computation adds to the trace satisfies [P]. *)
Definition emits (P : event -> Prop) {A} (c : M A) : Prop :=
  forall w, exists evs, trace (snd (c w)) = trace w ++ evs /\ Forall P evs.

(** Events other than replies and administrator queries. *)
Definition plain (e : event) : Prop :=
  match e with
  | EvReply _ | EvAdmins _ => False
  | _ => True
  end.

(** A reply to message [m], on the thread of [m]; any other event. *)
Definition addressed (m : Message) (e : event) : Prop :=
  match e with
  | EvReply r =>
      reply_to_message_id r = message_id m /\
      reply_thread_id r
      = (if is_topic_message m then message_thread_id m else None)
  | _ => True
  end.

(** Any event but an administrator query. *)
Definition no_query (e : event) : Prop :=
  match e with
  | EvAdmins _ => False
  | _ => True
  end.

(** The packing loop on groups of entries: [(groups, g)] stands for the
    closed parts and the running part. *)
Definition group_step (st : list (list string) * list string) (tag : string)
    : list (list string) * list string :=
  let '(groups, g) := st in
  if (len (lines g) + len tag + 1 <=? max_length)%nat
  then (groups, g ++ [tag])
  else (groups ++ [g], [tag]).

(** The groups of entries a tag list is sent in. *)
Definition pack (tags : list string) : list (list string) :=
  let '(groups, g) := fold_left group_step tags ([], []) in
  if is_nil g then groups else groups ++ [g].

(** No group could have taken the first entry of the next one: with it,
    the part would have [max_length] characters or more. *)
Definition greedy (gs : list (list string)) : Prop :=
  forall i g t g',
    nth_error gs i = Some g -> nth_error gs (S i) = Some (t :: g') ->
    max_length <= len (join (chr nl) (g ++ [t])).

(** A group that makes a part of fewer than [max_length] characters. *)
Definition small (g : list string) : Prop :=
  g <> [] /\ len (join (chr nl) g) < max_length.

(** What the packing loop keeps true of the closed groups and the running
    one. *)
Definition pack_inv (groups : list (list string)) (g : list string) : Prop :=
  Forall fits g /\ len (lines g) <= max_length /\ Forall small groups /\
  (g = [] -> groups = []) /\ greedy (groups ++ [g]).

(** A printable ASCII character or a newline. *)
Definition printable (c : ascii) : bool :=
  let n := N_of_ascii c in
  (((32 <=? n) && (n <=? 126)) || (n =? 10))%N.

(** A string of printable ASCII characters and newlines. *)
Fixpoint ascii_only (s : string) : bool :=
  match s with
  | EmptyString => true
  | String c r => printable c && ascii_only r
  end.



(** An update as the registered handler receives it: [update.message] is
    [None] when the update is an edited message or a channel post. *)
Record RawUpdate : Type := { raw_message : option Message }.

(** How handling an update can fail: the attribute access on a missing
    message, or an exception that leaves [tag_all]. *)
Inductive failure : Type :=
| AttributeError
| Escaped (e : exn).

(** [tag_all] on a raw update: lines 55 and 56 read [update.message] and
    then [message.chat] without a test. *)
Definition tag_all_raw (env : Env) (r : RawUpdate) (w : World)
    : option failure * World :=
  match raw_message r with
  | None => (Some AttributeError, w)
  | Some m =>
      match tag_all env {| message := m |} w with
      | (Ret _, w') => (None, w')
      | (Raise e, w') => (Some (Escaped e), w')
      end
  end.

(** The texts the client library gives for an update and for an error. *)
Record Rendering : Type := {
  show_update : RawUpdate -> string;
  show_failure : failure -> string
}.

(** [error_handler]: one error record naming the update and the error. *)
Definition error_handler (rd : Rendering) (r : RawUpdate) (f : failure)
    : M unit :=
  logger_error ("Update " +++ show_update rd r +++ " caused error "
                +++ show_failure rd f).

(** The client library's loop over the updates it hands to [tag_all]: a
    failure goes to the registered error handler and the loop goes on. *)
Fixpoint process_updates (rd : Rendering) (env : Env) (rs : list RawUpdate)
    (w : World) : World :=
  match rs with
  | [] => w
  | r :: rest =>
      match tag_all_raw env r w with
      | (None, w') => process_updates rd env rest w'
      | (Some f, w') =>
          process_updates rd env rest (snd (error_handler rd r f w'))
      end
  end.

Definition sample_rendering : Rendering :=
  {| show_update := fun _ => "<update>"; show_failure := fun _ => "<error>" |}.


(** A platform on which the second call alone fails. *)
Definition stutter_env : Env :=
  {| bot_username := "mybot"; administrators := fun _ => [];
     fault := fun n => match n with 1 => Some "Flood control" | _ => None end |}.

Definition private_message (from : User) (txt : string) : Update :=
  {| message := {| chat := {| chat_id := 55; chat_type := "private" |};
                   from_user := from; text := Some txt;
                   message_id := 9; message_thread_id := None;
                   is_topic_message := false |} |}.

(* ================================================================== *)
(** * Facts about strings *)

Section StringFacts.

Lemma append_nil_r (s : string) : s +++ "" = s.
Proof. induction s as [|c s IH]; simpl; [reflexivity | now rewrite IH]. Qed.

Lemma append_assoc (a b c : string) : (a +++ b) +++ c = a +++ (b +++ c).
Proof. induction a as [|x a IH]; simpl; [reflexivity | now rewrite IH]. Qed.

Lemma len_append (a b : string) : len (a +++ b) = len a + len b.
Proof. unfold len. induction a as [|x a IH]; simpl; [reflexivity | now rewrite IH]. Qed.

Lemma append_snoc (a : string) (c : ascii) (r : string) :
  (a +++ chr c) +++ r = a +++ String c r.
Proof. now rewrite append_assoc. Qed.

Lemma join_cons2 (sep x y : string) (l : list string) :
  join sep (x :: y :: l) = x +++ sep +++ join sep (y :: l).
Proof. reflexivity. Qed.

Lemma nonempty_true (s : string) : nonempty s = true <-> s <> "".
Proof. destruct s; simpl; split; congruence. Qed.

Lemma append_nonempty_r (a b : string) : b <> "" -> a +++ b <> "".
Proof. destruct a; simpl; [tauto | discriminate]. Qed.

Lemma tidy_nonempty (t : string) : tidy t = true -> t <> "".
Proof. destruct t; discriminate. Qed.

Lemma rstrip_tidy (t : string) : tidy t = true -> rstrip t = t.
Proof.
  unfold tidy. induction t as [|c r IH]; [discriminate|].
  cbn [last_char rstrip]. destruct r as [|c' r'].
  - cbn [rstrip]. intro H. apply negb_true_iff in H. now rewrite H.
  - intro H. rewrite (IH H). reflexivity.
Qed.

Lemma rstrip_append_drop (a b : string) :
  rstrip b = "" -> rstrip (a +++ b) = rstrip a.
Proof.
  intro H. induction a as [|c a IH]; [exact H|].
  cbn [String.append rstrip]. now rewrite IH.
Qed.

Lemma join_append (sep : string) (a b : list string) :
  a <> [] -> b <> [] ->
  join sep (a ++ b) = join sep a +++ sep +++ join sep b.
Proof.
  intros Ha Hb. induction a as [|x a IH]; [contradiction|].
  destruct a as [|y a].
  - destruct b as [|z b]; [contradiction | reflexivity].
  - change ((x :: y :: a) ++ b) with (x :: y :: (a ++ b)).
    rewrite !join_cons2.
    change (y :: a ++ b) with ((y :: a) ++ b).
    rewrite IH by discriminate. now rewrite !append_assoc.
Qed.

Lemma join_concat (sep : string) (gs : list (list string)) :
  Forall (fun g => g <> []) gs ->
  join sep (map (join sep) gs) = join sep (concat gs).
Proof.
  induction gs as [|g gs IH]; intro H; [reflexivity|].
  inversion H as [|? ? Hg Hgs]; subst.
  destruct gs as [|g' gs'].
  - cbn [map concat]. now rewrite app_nil_r.
  - change (map (join sep) (g :: g' :: gs'))
      with (join sep g :: join sep g' :: map (join sep) gs').
    rewrite join_cons2.
    change (join sep g' :: map (join sep) gs')
      with (map (join sep) (g' :: gs')).
    rewrite (IH Hgs).
    change (concat (g :: g' :: gs')) with (g ++ concat (g' :: gs')).
    rewrite join_append; [reflexivity | exact Hg |].
    inversion Hgs as [|? ? Hg' _]; subst.
    destruct g'; [contradiction | discriminate].
Qed.

Lemma lines_snoc (g : list string) (t : string) :
  lines (g ++ [t]) = lines g +++ t +++ chr nl.
Proof.
  induction g as [|x g IH]; cbn [lines app String.append].
  - now rewrite append_nil_r.
  - now rewrite IH, !append_assoc.
Qed.

Lemma lines_join (g : list string) :
  g <> [] -> lines g = join (chr nl) g +++ chr nl.
Proof.
  intro H. induction g as [|x g IH]; [contradiction|].
  destruct g as [|y g].
  - cbn [lines join String.concat]. now rewrite append_nil_r.
  - rewrite join_cons2. cbn [lines] in *.
    rewrite IH by discriminate. now rewrite !append_assoc.
Qed.

Lemma len_lines (g : list string) :
  g <> [] -> len (lines g) = len (join (chr nl) g) + 1.
Proof. intro H. now rewrite (lines_join g H), len_append. Qed.

Lemma join_tidy (g : list string) :
  g <> [] -> Forall (fun t => tidy t = true) g ->
  tidy (join (chr nl) g) = true.
Proof.
  assert (Happ : forall a b, b <> "" -> last_char (a +++ b) = last_char b).
  { intros a b Hb. induction a as [|c a IH]; [reflexivity|].
    cbn [String.append last_char]. rewrite IH.
    destruct (a +++ b) eqn:E; [|reflexivity].
    exfalso. now apply (append_nonempty_r a b). }
  intros Hg H. induction g as [|x g IH]; [contradiction|].
  inversion H as [|? ? Hx Hr]; subst.
  destruct g as [|y g]; [exact Hx|].
  rewrite join_cons2. specialize (IH ltac:(discriminate) Hr).
  unfold tidy in *.
  rewrite !Happ; [exact IH | now apply tidy_nonempty |].
  apply append_nonempty_r. now apply tidy_nonempty.
Qed.

(** Closing a running part gives its entries joined by newlines. *)
Lemma rstrip_lines (g : list string) :
  g <> [] -> Forall (fun t => tidy t = true) g ->
  rstrip (lines g) = join (chr nl) g.
Proof.
  intros Hg H. rewrite (lines_join g Hg).
  rewrite rstrip_append_drop by reflexivity.
  apply rstrip_tidy. now apply join_tidy.
Qed.

Lemma prefix_split (a b : string) :
  String.prefix a b = true -> exists post, b = a +++ post.
Proof.
  revert a. induction b as [|c b IH]; intros [|x a]; simpl; try discriminate.
  - now exists "".
  - now exists (String c b).
  - destruct (ascii_dec x c) as [->|_]; [|discriminate].
    intro H. destruct (IH a H) as [post ->]. now exists post.
Qed.

Lemma prefix_append (a b : string) : String.prefix a (a +++ b) = true.
Proof.
  induction a as [|c a IH]; simpl; [now destruct b|].
  destruct (ascii_dec c c); [exact IH | contradiction].
Qed.

Lemma contains_middle (needle pre post : string) :
  contains needle (pre +++ needle +++ post) = true.
Proof.
  induction pre as [|c pre IH].
  - cbn [String.append]. destruct (needle +++ post) eqn:E;
      cbn [contains]; rewrite <- E, prefix_append; reflexivity.
  - cbn [String.append contains]. rewrite IH. apply orb_true_r.
Qed.

(** [contains] is the substring test. *)
Lemma contains_iff (needle hay : string) :
  contains needle hay = true <->
  exists pre post, hay = pre +++ needle +++ post.
Proof.
  split.
  - induction hay as [|c hay IH]; cbn [contains]; intro H;
      apply orb_true_iff in H; destruct H as [H|H]; try discriminate.
    + destruct (prefix_split _ _ H) as [post E]. now exists "", post.
    + destruct (prefix_split _ _ H) as [post E]. now exists "", post.
    + destruct (IH H) as [pre [post ->]]. now exists (String c pre), post.
  - intros [pre [post ->]]. apply contains_middle.
Qed.

(** [rstrip] cuts a string before its trailing run of whitespace. *)
Lemma rstrip_spec (s : string) :
  exists ws,
    s = rstrip s +++ ws /\
    forallb isspace (list_ascii_of_string ws) = true /\
    (rstrip s = "" \/ tidy (rstrip s) = true).
Proof.
  induction s as [|c s [ws [E [Hall Hr]]]].
  - exists "". repeat split. now left.
  - cbn [rstrip]. destruct (rstrip s) as [|c' r'] eqn:Er.
    + cbn [String.append] in E. subst ws.
      destruct (isspace c) eqn:Ec.
      * exists (String c s). split; [reflexivity|].
        split; [cbn; now rewrite Ec, Hall | now left].
      * exists s. split; [reflexivity|]. split; [exact Hall|].
        right. unfold tidy, chr. cbn. now rewrite Ec.
    + exists ws. cbn [String.append] in *. split; [now rewrite <- E|].
      split; [exact Hall|]. right.
      destruct Hr as [Hr|Hr]; [discriminate|].
      unfold tidy in *. cbn [last_char] in *. exact Hr.
Qed.

End StringFacts.

(* ================================================================== *)
(** * The JSON codec round trip *)

Section JsonRoundTrip.

Import Json.

Lemma run_append (a b : string) : forall p,
  run p (a +++ b) = match run p a with Some p' => run p' b | None => None end.
Proof.
  induction a as [|c a IH]; intro p; simpl; [reflexivity|].
  destruct (step p c); [apply IH | reflexivity].
Qed.

Ltac by_cases_on_char c :=
  destruct c as [[] [] [] [] [] [] [] []]; reflexivity.

Lemma run_key_char (d : dict) (acc : string) (c : ascii) :
  run (PKey d acc SPlain) (escape_char c) = Some (PKey d (acc +++ chr c) SPlain).
Proof. by_cases_on_char c. Qed.

Lemma run_item_char (d : dict) (k : string) (items : list string)
    (acc : string) (c : ascii) :
  run (PItem d k items acc SPlain) (escape_char c)
  = Some (PItem d k items (acc +++ chr c) SPlain).
Proof. by_cases_on_char c. Qed.

Lemma run_key_escape (d : dict) (s : string) : forall acc,
  run (PKey d acc SPlain) (escape s) = Some (PKey d (acc +++ s) SPlain).
Proof.
  induction s as [|c s IH]; intro acc; simpl.
  - now rewrite append_nil_r.
  - rewrite run_append, run_key_char, IH. now rewrite append_snoc.
Qed.

Lemma run_item_escape (d : dict) (k : string) (items : list string)
    (s : string) : forall acc,
  run (PItem d k items acc SPlain) (escape s)
  = Some (PItem d k items (acc +++ s) SPlain).
Proof.
  induction s as [|c s IH]; intro acc; simpl.
  - now rewrite append_nil_r.
  - rewrite run_append, run_item_char, IH. now rewrite append_snoc.
Qed.

(** Reading a key, from just after its opening quote. *)
Lemma run_key (d : dict) (k rest : string) :
  run (PKey d "" SPlain) (escape k +++ chr dq +++ rest) = run (PColon d k) rest.
Proof. rewrite run_append, run_key_escape. reflexivity. Qed.

(** Reading an array item, from just after its opening quote. *)
Lemma run_item (d : dict) (k : string) (items : list string) (x rest : string) :
  run (PItem d k items "" SPlain) (escape x +++ chr dq +++ rest)
  = run (PItemEnd d k (items ++ [x])) rest.
Proof. rewrite run_append, run_item_escape. reflexivity. Qed.

Lemma encode_str_append (x rest : string) :
  encode_str x +++ rest = String dq (escape x +++ chr dq +++ rest).
Proof. unfold encode_str. simpl. now rewrite append_assoc. Qed.

Lemma run_item_next_quote (d : dict) (k : string) (items : list string)
    (r : string) :
  run (PItemNext d k items) (String dq r) = run (PItem d k items "" SPlain) r.
Proof. reflexivity. Qed.

Lemma run_item_separator (d : dict) (k : string) (items : list string)
    (r : string) :
  run (PItemEnd d k items) (("," +++ nl8) +++ r) = run (PItemNext d k items) r.
Proof. reflexivity. Qed.

(** Reading the items of an array, from the place where the next item is
    expected. *)
Lemma run_items (d : dict) (k : string) (l : list string) :
  forall (x : string) (items : list string) (rest : string),
    run (PItemNext d k items)
        (join ("," +++ nl8) (map encode_str (x :: l)) +++ rest)
    = run (PItemEnd d k (items ++ x :: l)) rest.
Proof.
  induction l as [|y l IH]; intros x items rest.
  - cbn [map join String.concat]. rewrite encode_str_append.
    rewrite run_item_next_quote. apply run_item.
  - change (map encode_str (x :: y :: l))
      with (encode_str x :: map encode_str (y :: l)).
    change (map encode_str (y :: l))
      with (encode_str y :: map encode_str l) at 1.
    rewrite join_cons2.
    change (encode_str y :: map encode_str l)
      with (map encode_str (y :: l)).
    rewrite append_assoc, encode_str_append, run_item_next_quote, run_item.
    rewrite append_assoc, run_item_separator, IH.
    now rewrite <- app_assoc.
Qed.

Lemma run_array_first (d : dict) (k : string) (x : string) (l : list string)
    (rest : string) :
  run (PArrOpen d k) (join ("," +++ nl8) (map encode_str (x :: l)) +++ rest)
  = run (PItemNext d k [])
        (join ("," +++ nl8) (map encode_str (x :: l)) +++ rest).
Proof.
  destruct l as [|y l].
  - cbn [map join String.concat]. now rewrite encode_str_append.
  - change (map encode_str (x :: y :: l))
      with (encode_str x :: encode_str y :: map encode_str l).
    rewrite join_cons2, append_assoc, encode_str_append. reflexivity.
Qed.

(** Reading a whole array value. *)
Lemma run_list (d : dict) (k : string) (v : list string) (rest : string) :
  run (PValue d k) (encode_list v +++ rest) = run (PEntryEnd (dict_set d k v)) rest.
Proof.
  destruct v as [|x l]; [reflexivity|].
  unfold encode_list.
  change (run (PArrOpen d k)
            ((join ("," +++ nl8) (map encode_str (x :: l)) +++ nl4 +++ "]")
             +++ rest)
          = run (PEntryEnd (dict_set d k (x :: l))) rest).
  rewrite append_assoc, run_array_first, run_items.
  reflexivity.
Qed.

Lemma run_entry_next_quote (d : dict) (r : string) :
  run (PEntryNext d) (String dq r) = run (PKey d "" SPlain) r.
Proof. reflexivity. Qed.

Lemma run_colon (d : dict) (k r : string) :
  run (PColon d k) (": " +++ r) = run (PValue d k) r.
Proof. reflexivity. Qed.

Lemma run_entry (d : dict) (kv : string * list string) (rest : string) :
  run (PEntryNext d) (encode_entry kv +++ rest) = run (PEntryEnd (put d kv)) rest.
Proof.
  destruct kv as [k v]. unfold encode_entry, put. cbn [fst snd].
  rewrite append_assoc, encode_str_append, run_entry_next_quote, run_key.
  rewrite append_assoc, run_colon. apply run_list.
Qed.

Lemma run_entry_separator (d : dict) (r : string) :
  run (PEntryEnd d) (("," +++ nl4) +++ r) = run (PEntryNext d) r.
Proof. reflexivity. Qed.

Lemma run_entries (es : list (string * list string)) :
  forall (e : string * list string) (d : dict) (rest : string),
    run (PEntryNext d) (join ("," +++ nl4) (map encode_entry (e :: es)) +++ rest)
    = run (PEntryEnd (fold_left put (e :: es) d)) rest.
Proof.
  induction es as [|e' es IH]; intros e d rest.
  - cbn [map join String.concat fold_left]. apply run_entry.
  - change (map encode_entry (e :: e' :: es))
      with (encode_entry e :: map encode_entry (e' :: es)).
    change (map encode_entry (e' :: es))
      with (encode_entry e' :: map encode_entry es) at 1.
    rewrite join_cons2.
    change (encode_entry e' :: map encode_entry es)
      with (map encode_entry (e' :: es)).
    rewrite append_assoc, run_entry, append_assoc, run_entry_separator, IH.
    reflexivity.
Qed.

Lemma join_head (sep x : string) (l : list string) (rest : string) :
  exists r, join sep (x :: l) +++ rest = x +++ r.
Proof.
  destruct l as [|y l].
  - now exists rest.
  - exists (sep +++ join sep (y :: l) +++ rest).
    now rewrite join_cons2, !append_assoc.
Qed.

Lemma run_object_first (e : string * list string)
    (es : list (string * list string)) (rest : string) :
  run PObjOpen (join ("," +++ nl4) (map encode_entry (e :: es)) +++ rest)
  = run (PEntryNext [])
        (join ("," +++ nl4) (map encode_entry (e :: es)) +++ rest).
Proof.
  cbn [map].
  destruct (join_head ("," +++ nl4) (encode_entry e) (map encode_entry es) rest)
    as [r ->].
  reflexivity.
Qed.

(** Decoding an encoded dict stores its entries one after the other. *)
Lemma loads_dumps_fold (d : dict) :
  loads (dumps d) = Some (fold_left put d []).
Proof.
  destruct d as [|e es]; [reflexivity|].
  unfold loads, dumps.
  change (match run PObjOpen
                  (nl4 +++ join ("," +++ nl4) (map encode_entry (e :: es))
                       +++ chr nl +++ "}")
          with Some (PDone d) => Some d | _ => None end
          = Some (fold_left put (e :: es) [])).
  change (run PObjOpen (nl4 +++ ?r)) with (run PObjOpen r).
  rewrite run_object_first, run_entries. reflexivity.
Qed.

End JsonRoundTrip.

(* ================================================================== *)
(** * Facts about dicts *)

Section DictFacts.

Lemma dict_set_fresh (d : dict) (k : string) (v : list string) :
  ~ In k (map fst d) -> dict_set d k v = d ++ [(k, v)].
Proof.
  induction d as [|[k' v'] d IH]; intro H; simpl; [reflexivity|].
  simpl in H. destruct (String.eqb_spec k' k) as [->|_].
  - exfalso. apply H. now left.
  - rewrite IH; [reflexivity|]. intro Hin. apply H. now right.
Qed.

Lemma dict_set_keys (d : dict) (k : string) (v : list string) :
  map fst (dict_set d k v)
  = if dict_mem d k then map fst d else map fst d ++ [k].
Proof.
  unfold dict_mem.
  induction d as [|[k' v'] d IH]; simpl; [reflexivity|].
  destruct (String.eqb_spec k' k) as [->|_]; simpl; [reflexivity|].
  rewrite IH. now destruct (dict_get d k).
Qed.

Lemma dict_mem_In (d : dict) (k : string) :
  dict_mem d k = true <-> In k (map fst d).
Proof.
  unfold dict_mem.
  induction d as [|[k' v'] d IH]; simpl.
  - split; [discriminate | tauto].
  - destruct (String.eqb_spec k' k) as [->|Hne].
    + split; [now left | reflexivity].
    + rewrite IH. split; [now right | intros [E|H]; [contradiction | exact H]].
Qed.

Lemma dict_set_wf (d : dict) (k : string) (v : list string) :
  dict_wf d -> dict_wf (dict_set d k v).
Proof.
  unfold dict_wf. intro H. rewrite dict_set_keys.
  destruct (dict_mem d k) eqn:E; [exact H|].
  apply NoDup_app; [exact H | repeat constructor; intros [] | ].
  intros x Hx [<-|[]].
  apply dict_mem_In in Hx. congruence.
Qed.

Lemma dict_get_set_same (d : dict) (k : string) (v : list string) :
  dict_get (dict_set d k v) k = Some v.
Proof.
  induction d as [|[k' v'] d IH]; simpl.
  - now rewrite String.eqb_refl.
  - destruct (String.eqb_spec k' k) as [->|Hne]; simpl.
    + now rewrite String.eqb_refl.
    + destruct (String.eqb_spec k' k); [contradiction | exact IH].
Qed.

Lemma fold_put_fresh (es : list (string * list string)) : forall d : dict,
  NoDup (map fst (d ++ es)) -> fold_left Json.put es d = d ++ es.
Proof.
  induction es as [|[k v] es IH]; intros d H; simpl.
  - now rewrite app_nil_r.
  - unfold Json.put at 2. cbn [fst snd].
    assert (Hk : ~ In k (map fst d)).
    { rewrite map_app in H. apply NoDup_remove_2 in H.
      intro Hin. apply H. apply in_or_app. now left. }
    rewrite (dict_set_fresh d k v Hk).
    rewrite IH; rewrite <- app_assoc; [reflexivity | exact H].
Qed.

Lemma dict_set_set (d : dict) (k : string) (v v' : list string) :
  dict_set (dict_set d k v) k v' = dict_set d k v'.
Proof.
  induction d as [|[k0 v0] d IH]; simpl.
  - now rewrite String.eqb_refl.
  - destruct (String.eqb_spec k0 k) as [->|Hne]; simpl.
    + now rewrite String.eqb_refl.
    + destruct (String.eqb_spec k0 k); [contradiction | now rewrite IH].
Qed.

Lemma dict_get_default_set_same (d : dict) (k : string) (v : list string) :
  dict_get_default (dict_set d k v) k = v.
Proof. unfold dict_get_default. now rewrite dict_get_set_same. Qed.

(** Creating the missing entry of a chat changes neither the list read for
    that chat nor the result of the later assignment. *)
Lemma ensure_entry_get (d : dict) (k : string) :
  dict_get_default (if negb (dict_mem d k) then dict_set d k [] else d) k
  = dict_get_default d k.
Proof.
  unfold dict_mem, dict_get_default at 2.
  destruct (dict_get d k) eqn:E; cbn [negb]; [|apply dict_get_default_set_same].
  unfold dict_get_default. now rewrite E.
Qed.

Lemma ensure_entry_set (d : dict) (k : string) (v : list string) :
  dict_set (if negb (dict_mem d k) then dict_set d k [] else d) k v
  = dict_set d k v.
Proof.
  destruct (negb (dict_mem d k)); [apply dict_set_set | reflexivity].
Qed.

Lemma mem_In (x : string) (l : list string) : mem x l = true <-> In x l.
Proof.
  unfold mem. rewrite existsb_exists. split.
  - intros [y [Hy E]]. apply String.eqb_eq in E. now subst.
  - intro H. exists x. split; [exact H | apply String.eqb_refl].
Qed.

End DictFacts.

(* ================================================================== *)
(** * The decoder returns dicts, and decodes what the encoder wrote *)

Section JsonDicts.

Import Json.

Lemma step_entries_wf (p p' : pstate) (c : ascii) :
  step p c = Some p' -> dict_wf (entries p) -> dict_wf (entries p').
Proof.
  destruct p; cbn [step entries];
    repeat match goal with
      | |- context [if ?b then _ else _] => destruct b
      | |- context [match sstep ?s ?c with _ => _ end] => destruct (sstep s c)
      end;
    intros [= <-]; cbn [entries]; intro H;
    first [ exact H | apply dict_set_wf; exact H | constructor ].
Qed.

Lemma run_entries_wf (s : string) : forall p p',
  run p s = Some p' -> dict_wf (entries p) -> dict_wf (entries p').
Proof.
  induction s as [|c s IH]; intros p p'; simpl.
  - now intros [= <-].
  - destruct (step p c) as [q|] eqn:E; [|discriminate].
    intros Hrun Hwf. eapply IH; [exact Hrun|].
    eapply step_entries_wf; eassumption.
Qed.

Lemma loads_wf (s : string) (d : dict) : loads s = Some d -> dict_wf d.
Proof.
  unfold loads. destruct (run PStart s) as [p|] eqn:E; [|discriminate].
  destruct p; try discriminate. intros [= <-].
  apply (run_entries_wf s PStart (PDone d0) E). constructor.
Qed.

Lemma loads_dumps (d : dict) : dict_wf d -> loads (dumps d) = Some d.
Proof.
  intro H. rewrite loads_dumps_fold. f_equal.
  apply (fold_put_fresh d []). exact H.
Qed.

(** The text written for a small registry, and two documents that are not
    the encoder's own. *)
Example dumps_layout :
  dumps [("1", ["a"; "b"]); ("2", [])]
  = "{" +++ chr nl
    +++ "    " +++ chr dq +++ "1" +++ chr dq +++ ": [" +++ chr nl
    +++ "        " +++ chr dq +++ "a" +++ chr dq +++ "," +++ chr nl
    +++ "        " +++ chr dq +++ "b" +++ chr dq +++ chr nl
    +++ "    ]," +++ chr nl
    +++ "    " +++ chr dq +++ "2" +++ chr dq +++ ": []" +++ chr nl
    +++ "}".
Proof. reflexivity. Qed.

Example loads_compact :
  loads ("{" +++ chr dq +++ "1" +++ chr dq +++ ":[" +++ chr dq +++ "aA\/"
         +++ chr dq +++ "] }" +++ chr nl)
  = Some [("1", ["aA/"])].
Proof. reflexivity. Qed.

Example loads_trailing_comma :
  loads ("{" +++ chr dq +++ "1" +++ chr dq +++ ":[],}") = None.
Proof. reflexivity. Qed.

End JsonDicts.

(* ================================================================== *)
(** * Running the primitives *)

Section Primitives.

Lemma bind_ret_run {A B} (c : M A) (k : A -> M B) (w w' : World) (a : A) :
  c w = (Ret a, w') -> bind c k w = k a w'.
Proof. unfold bind. now intros ->. Qed.

Lemma load_members_run (w : World) :
  load_members w
  = (match stored w with Some d => Ret d | None => Raise JSONDecodeError end,
     after w [EvRead]).
Proof.
  unfold load_members, bind, emit, stored, after. cbn [fs].
  destruct (fs w) as [s|]; [|reflexivity].
  now destruct (Json.loads s).
Qed.

Lemma save_members_run (d : dict) (w : World) :
  save_members d w
  = (Ret tt, {| fs := Some (Json.dumps d); api_calls := api_calls w;
                trace := trace w ++ [EvWrite (Json.dumps d)] |}).
Proof. reflexivity. Qed.

Lemma stored_saved (d : dict) (n : nat) (t : list event) :
  dict_wf d ->
  stored {| fs := Some (Json.dumps d); api_calls := n; trace := t |} = Some d.
Proof. intro H. unfold stored. cbn [fs]. now apply loads_dumps. Qed.

Lemma stored_wf (w : World) (d : dict) : stored w = Some d -> dict_wf d.
Proof.
  unfold stored. destruct (fs w) as [s|].
  - apply loads_wf.
  - intros [= <-]. constructor.
Qed.

Lemma reply_ok (env : Env) (m : Message) (t : string) (w : World) :
  fault env (api_calls w) = None ->
  reply env m t w
  = (Ret tt, {| fs := fs w; api_calls := S (api_calls w);
                trace := trace w ++ [EvReply (reply_of m t)] |}).
Proof.
  intro H. unfold reply, reply_text, bind, api_call, emit.
  now rewrite H.
Qed.

Lemma reply_fail (env : Env) (m : Message) (t e : string) (w : World) :
  fault env (api_calls w) = Some e ->
  reply env m t w
  = (Raise (TelegramError e),
     {| fs := fs w; api_calls := S (api_calls w); trace := trace w |}).
Proof.
  intro H. unfold reply, reply_text, bind, api_call, emit.
  now rewrite H.
Qed.

Lemma admins_ok (env : Env) (c : Z) (w : World) :
  fault env (api_calls w) = None ->
  get_chat_administrators env c w
  = (Ret (administrators env c),
     {| fs := fs w; api_calls := S (api_calls w);
        trace := trace w ++ [EvAdmins c] |}).
Proof.
  intro H. unfold get_chat_administrators, bind, api_call, emit, ret.
  now rewrite H.
Qed.

Lemma bind_raise_to {A B} (c : M A) (k : A -> M B) (w w' : World) (e : exn) :
  c w = (Raise e, w') -> bind c k w = (Raise e, w').
Proof. unfold bind. now intros ->. Qed.

End Primitives.

(* ================================================================== *)
(** * Member store *)

Section MemberStore.

(** C3.  Saving a registry and then loading returns that registry: for
    every dict [R] (keys pairwise distinct), [save_members R] followed by
    [load_members] returns [R], having written the encoding of [R] to the
    file and read it back. *)
Theorem save_then_load (R : dict) (w : World) :
  dict_wf R ->
  (save_members R ;; load_members) w
  = (Ret R, {| fs := Some (Json.dumps R); api_calls := api_calls w;
               trace := trace w ++ [EvWrite (Json.dumps R); EvRead] |}).
Proof.
  intro H.
  rewrite (bind_ret_run _ _ _ _ _ (save_members_run R w)).
  rewrite load_members_run, (stored_saved R _ _ H).
  unfold after. cbn [fs api_calls trace]. now rewrite <- app_assoc.
Qed.

End MemberStore.

(* ================================================================== *)
(** * Membership tracker *)

Section Tracker.

Variable u : Update.
Variable w : World.

Let m := message u.
Let cid := str_of_int (chat_id (chat m)).
Let name := handle (username (from_user m)).

Lemma track_skip :
  trackable u = false -> track_members u w = (Ret tt, after w [EvTrack]).
Proof.
  unfold trackable, track_members, bind, emit. intros ->. reflexivity.
Qed.

Lemma track_known (R : dict) :
  trackable u = true -> stored w = Some R ->
  mem name (dict_get_default R cid) = true ->
  track_members u w = (Ret tt, after w [EvTrack; EvRead]).
Proof.
  unfold trackable, track_members. intros -> H Hin.
  unfold bind at 1. cbn [emit].
  unfold bind at 1. rewrite load_members_run. unfold stored in *.
  cbn [fs] in *. rewrite H.
  fold m. fold cid. fold name.
  rewrite ensure_entry_get, Hin. cbn [negb ret].
  unfold after. cbn [fs api_calls trace]. now rewrite <- app_assoc.
Qed.

Lemma track_new (R : dict) :
  trackable u = true -> stored w = Some R ->
  mem name (dict_get_default R cid) = false ->
  track_members u w
  = (Ret tt,
     {| fs := Some (Json.dumps (with_member R cid name));
        api_calls := api_calls w;
        trace := trace w ++
          [EvTrack; EvRead; EvWrite (Json.dumps (with_member R cid name));
           EvLog INFO ("Added @" +++ name +++ " to members list for chat "
                       +++ cid)] |}).
Proof.
  unfold trackable, track_members. intros -> H Hin.
  unfold bind at 1. cbn [emit].
  unfold bind at 1. rewrite load_members_run. unfold stored in *.
  cbn [fs] in *. rewrite H.
  fold m. fold cid. fold name.
  rewrite ensure_entry_get, Hin, ensure_entry_set. cbn [negb].
  unfold bind, save_members, logger_info, emit, after, with_member.
  cbn [fs api_calls trace]. now rewrite <- !app_assoc.
Qed.

End Tracker.

Section TrackerInvariant.

Lemma lists_nodup_get (R : dict) (k : string) :
  lists_nodup R -> NoDup (dict_get_default R k).
Proof.
  unfold dict_get_default.
  induction R as [|[k' v] R IH]; simpl; intro H; [constructor|].
  inversion H as [|? ? Hv HR]; subst.
  destruct (String.eqb k' k); [exact Hv | now apply IH].
Qed.

Lemma lists_nodup_set (R : dict) (k : string) (v : list string) :
  lists_nodup R -> NoDup v -> lists_nodup (dict_set R k v).
Proof.
  unfold lists_nodup. intros H Hv.
  induction R as [|[k' v'] R IH]; simpl.
  - now repeat constructor.
  - inversion H as [|? ? Hv' HR]; subst.
    destruct (String.eqb k' k); constructor; auto.
Qed.

Lemma nodup_snoc (l : list string) (x : string) :
  NoDup l -> ~ In x l -> NoDup (l ++ [x]).
Proof.
  intros Hl Hx. apply NoDup_app; [exact Hl | repeat constructor; intros [] |].
  intros y Hy [<-|[]]. contradiction.
Qed.

Lemma with_member_wf (R : dict) (cid name : string) :
  dict_wf R -> dict_wf (with_member R cid name).
Proof. apply dict_set_wf. Qed.

Lemma with_member_lists (R : dict) (cid name : string) :
  lists_nodup R -> mem name (dict_get_default R cid) = false ->
  lists_nodup (with_member R cid name).
Proof.
  intros H Hn. apply lists_nodup_set; [exact H|].
  apply nodup_snoc; [now apply lists_nodup_get|].
  intro Hin. apply mem_In in Hin. congruence.
Qed.

Lemma with_member_known (R : dict) (cid name : string) :
  mem name (dict_get_default (with_member R cid name) cid) = true.
Proof.
  unfold with_member. rewrite dict_get_default_set_same.
  apply mem_In, in_or_app. right. now left.
Qed.

(** What one tracking step leaves behind, in a world whose file decodes:
    the same registry, which holds the username whenever the update is
    trackable, or the registry with the username appended. *)
Lemma track_cases (u : Update) (w : World) (R : dict) :
  let cid := str_of_int (chat_id (chat (message u))) in
  let name := handle (username (from_user (message u))) in
  stored w = Some R ->
  exists w', track_members u w = (Ret tt, w') /\
    ((fs w' = fs w /\ stored w' = Some R /\
      (trackable u = true -> mem name (dict_get_default R cid) = true)) \/
     (trackable u = true /\
      mem name (dict_get_default R cid) = false /\
      stored w' = Some (with_member R cid name))).
Proof.
  intros cid name H.
  destruct (trackable u) eqn:Ht.
  - destruct (mem name (dict_get_default R cid)) eqn:Hm.
    + eexists. split; [apply (track_known u w R Ht H Hm)|]. left. now repeat split.
    + eexists. split; [apply (track_new u w R Ht H Hm)|]. right.
      repeat split.
      apply stored_saved, with_member_wf. exact (stored_wf w R H).
  - eexists. split; [apply (track_skip u w Ht)|]. left.
    split; [reflexivity | split; [exact H | discriminate]].
Qed.

(** A step on a world where the username is already stored, or the update
    is not trackable, leaves the file alone. *)
Lemma track_again (u : Update) (w : World) (R : dict) :
  stored w = Some R ->
  (trackable u = true ->
   mem (handle (username (from_user (message u))))
       (dict_get_default R (str_of_int (chat_id (chat (message u))))) = true) ->
  exists w', track_members u w = (Ret tt, w') /\ fs w' = fs w.
Proof.
  intros H Hm. destruct (trackable u) eqn:Ht.
  - eexists. split; [apply (track_known u w R Ht H (Hm eq_refl))|]. reflexivity.
  - eexists. split; [apply (track_skip u w Ht)|]. reflexivity.
Qed.

(** A second tracking step with the same update leaves the file as the
    first one left it, and the first one leaves the username stored. *)
Lemma track_twice (u : Update) (w : World) (R : dict) :
  stored w = Some R ->
  exists w1 w2 R1,
    track_members u w = (Ret tt, w1) /\ track_members u w1 = (Ret tt, w2) /\
    fs w2 = fs w1 /\ stored w1 = Some R1 /\
    (trackable u = true ->
     In (handle (username (from_user (message u))))
        (dict_get_default R1 (str_of_int (chat_id (chat (message u)))))).
Proof.
  intro H.
  destruct (track_cases u w R H) as [w1 [E1 [[_ [Hst Hm]]|[Ht [_ Hst]]]]].
  - destruct (track_again u w1 R Hst Hm) as [w2 [E2 Hfs]].
    exists w1, w2, R. repeat split; try assumption.
    intro Ht. apply mem_In. exact (Hm Ht).
  - destruct (track_again u w1 _ Hst (fun _ => with_member_known R _ _))
      as [w2 [E2 Hfs]].
    exists w1, w2, (with_member R (str_of_int (chat_id (chat (message u))))
                                  (handle (username (from_user (message u))))).
    repeat split; try assumption.
    intros _. apply mem_In, with_member_known.
Qed.

Lemma track_keeps_store_ok (u : Update) (w : World) :
  store_ok w ->
  exists w', track_members u w = (Ret tt, w') /\ store_ok w'.
Proof.
  intros [R [H Hl]].
  destruct (track_cases u w R H) as [w' [E [[_ [Hst _]]|[_ [Hm Hst]]]]].
  - exists w'. split; [exact E|]. now exists R.
  - exists w'. split; [exact E|]. eexists. split; [exact Hst|].
    now apply with_member_lists.
Qed.

Lemma tracks_keep_store_ok (us : list Update) : forall w,
  store_ok w ->
  exists w', handle_all track_members us w = (Ret tt, w') /\ store_ok w'.
Proof.
  induction us as [|u us IH]; intros w H; cbn [handle_all].
  - now exists w.
  - destruct (track_keeps_store_ok u w H) as [w1 [E1 H1]].
    destruct (IH w1 H1) as [w' [E' H']].
    exists w'. split; [|exact H'].
    now rewrite (bind_ret_run _ _ _ _ _ E1).
Qed.

(** C5.  Tracking does nothing for a bot account, for a user without a
    handle (absent or empty) and outside group and supergroup chats: the
    call returns with the file as it was and with no event but its own
    entry marker, so the file has been neither read nor written and no
    username has been appended. *)
Theorem track_members_guard (u : Update) (w : World) :
  is_bot (from_user (message u)) = true \/
  username (from_user (message u)) = None \/
  username (from_user (message u)) = Some "" \/
  (chat_type (chat (message u)) <> "group" /\
   chat_type (chat (message u)) <> "supergroup") ->
  track_members u w
  = (Ret tt, {| fs := fs w; api_calls := api_calls w;
                trace := trace w ++ [EvTrack] |}).
Proof.
  intro H. apply track_skip. unfold trackable.
  destruct H as [H|[H|[H|[H1 H2]]]].
  - rewrite H. cbn [negb]. now rewrite andb_false_r.
  - rewrite H. cbn [truthy]. now rewrite andb_false_r.
  - rewrite H. cbn [truthy nonempty]. now rewrite andb_false_r.
  - unfold in_group, mem. cbn [existsb].
    destruct (String.eqb_spec (chat_type (chat (message u))) "group");
      [contradiction|].
    destruct (String.eqb_spec (chat_type (chat (message u))) "supergroup");
      [contradiction|].
    reflexivity.
Qed.

(** C4.  From a world whose file is absent or holds a registry without
    duplicates: tracking the same update twice returns both times, the
    first run leaves the username stored when the update is trackable, and
    the second run leaves the file, hence the stored list of the chat, as
    the first one left it; and after any sequence of tracking steps the
    file still decodes to a registry in which no list holds a username
    twice. *)
Theorem track_members_idempotent_nodup (w : World) :
  store_ok w ->
  (forall u, exists w1 w2 R1,
      track_members u w = (Ret tt, w1) /\
      track_members u w1 = (Ret tt, w2) /\
      fs w2 = fs w1 /\ stored w1 = Some R1 /\ stored w2 = Some R1 /\
      (trackable u = true ->
       In (handle (username (from_user (message u))))
          (dict_get_default R1 (str_of_int (chat_id (chat (message u))))))) /\
  (forall us, exists w' R,
      handle_all track_members us w = (Ret tt, w') /\
      stored w' = Some R /\
      forall cid, NoDup (dict_get_default R cid)).
Proof.
  intros Hok. split.
  - intro u. destruct Hok as [R [H _]].
    destruct (track_twice u w R H) as [w1 [w2 [R1 [E1 [E2 [Hfs [Hst Hin]]]]]]].
    exists w1, w2, R1. repeat split; try assumption.
    unfold stored in *. now rewrite Hfs.
  - intro us. destruct (tracks_keep_store_ok us w Hok) as [w' [E [R [HR Hl]]]].
    exists w', R. repeat split; try assumption.
    intro cid. now apply lists_nodup_get.
Qed.

End TrackerInvariant.

(* ================================================================== *)
(** * The packing loop *)

Section Packing.

Lemma fits_tidy (l : list string) :
  Forall fits l -> Forall (fun t => tidy t = true) l.
Proof. apply Forall_impl. now intros t [H _]. Qed.

(** The loop invariant: the closed parts are groups of whole entries, the
    running part holds the entries of the open group, and nothing read so
    far is lost or repeated. *)
Lemma split_fold (rest : list string) :
  forall (groups : list (list string)) (g : list string),
    Forall fits rest -> Forall fits g ->
    len (lines g) <= max_length -> Forall chunk groups ->
    exists groups' g',
      fold_left split_step rest (map (join (chr nl)) groups, lines g)
      = (map (join (chr nl)) groups', lines g') /\
      concat groups' ++ g' = concat groups ++ g ++ rest /\
      Forall chunk groups' /\ Forall fits g' /\
      len (lines g') <= max_length /\
      (g' = [] -> g = [] /\ rest = []) /\
      (groups' = [] -> groups = [] /\ g' = g ++ rest).
Proof.
  induction rest as [|t rest IH]; intros groups g Hrest Hg Hlen Hgroups.
  - exists groups, g. rewrite !app_nil_r. repeat split; auto.
  - inversion Hrest as [|? ? Ht Hrest']; subst.
    cbn [fold_left]. unfold split_step at 2.
    destruct (len (lines g) + len t + 1 <=? max_length)%nat eqn:E.
    + apply Nat.leb_le in E.
      rewrite <- lines_snoc.
      destruct (IH groups (g ++ [t])) as [groups' [g' [Hf [Hc [Hch [Hg' [Hl [He Hn]]]]]]]];
        auto.
      * apply Forall_app. split; [exact Hg | now constructor].
      * rewrite lines_snoc, !len_append. unfold len at 3. simpl. lia.
      * exists groups', g'. rewrite Hf.
        split; [reflexivity|]. split; [now rewrite Hc, <- app_assoc|].
        split; [exact Hch|]. split; [exact Hg'|]. split; [exact Hl|]. split.
        -- intro Hnil. destruct (He Hnil) as [Habs _]. now destruct g.
        -- intro Hnil. destruct (Hn Hnil) as [-> ->].
           split; [reflexivity | now rewrite <- app_assoc].
    + apply Nat.leb_gt in E.
      assert (Hne : g <> []).
      { intros ->. destruct Ht as [_ Ht]. cbn [lines] in E.
        unfold len in *. simpl in E. lia. }
      rewrite (rstrip_lines g Hne (fits_tidy g Hg)).
      change (map (join (chr nl)) groups ++ [join (chr nl) g])
        with (map (join (chr nl)) groups ++ map (join (chr nl)) [g]).
      rewrite <- map_app.
      change (t +++ chr nl) with ("" +++ t +++ chr nl).
      change "" with (lines []). rewrite <- lines_snoc.
      destruct (IH (groups ++ [g]) ([] ++ [t]))
        as [groups' [g' [Hf [Hc [Hch [Hg' [Hl [He Hn]]]]]]]]; auto.
      * now constructor.
      * destruct Ht as [_ Ht]. cbn [app lines]. rewrite !len_append.
        unfold len in *. simpl. lia.
      * apply Forall_app. split; [exact Hgroups|]. constructor; [|constructor].
        split; [exact Hne|]. rewrite (len_lines g Hne) in Hlen. lia.
      * exists groups', g'. rewrite Hf.
        split; [reflexivity|]. split.
        { rewrite Hc, concat_app. cbn [concat app].
          now rewrite app_nil_r, <- app_assoc. }
        split; [exact Hch|]. split; [exact Hg'|]. split; [exact Hl|]. split.
        -- intro Hnil. now destruct (He Hnil).
        -- intro Hnil. destruct (Hn Hnil) as [Habs _]. now destruct groups.
Qed.

(** What the packing loop returns on a long list of entries that fit. *)
Lemma split_parts_groups (tags : list string) :
  Forall fits tags -> max_length < len (join (chr nl) tags) ->
  exists groups,
    split_parts tags = map (join (chr nl)) groups /\
    concat groups = tags /\
    Forall chunk groups /\
    2 <= length groups.
Proof.
  intros Hfit Hlong.
  assert (Hne : tags <> []).
  { intros ->. unfold max_length, len in Hlong. simpl in Hlong. lia. }
  destruct (split_fold tags [] [] Hfit (Forall_nil _))
    as [groups [g [Hf [Hc [Hch [Hg [Hl [He Hn]]]]]]]].
  - unfold max_length, len. simpl. lia.
  - constructor.
  - cbn [map lines concat app] in *.
    assert (Hgne : g <> []).
    { intro Hnil. now destruct (He Hnil). }
    exists (groups ++ [g]). unfold split_parts. rewrite Hf.
    assert (Hnon : nonempty (lines g) = true).
    { apply nonempty_true. rewrite (lines_join g Hgne).
      apply append_nonempty_r. discriminate. }
    rewrite Hnon, (rstrip_lines g Hgne (fits_tidy g Hg)).
    repeat split.
    + now rewrite map_app.
    + rewrite concat_app. cbn [concat]. now rewrite app_nil_r.
    + apply Forall_app. split; [exact Hch|]. constructor; [|constructor].
      split; [exact Hgne|]. rewrite (len_lines g Hgne) in Hl. lia.
    + rewrite length_app. cbn [length].
      destruct groups as [|g0 groups]; [|cbn [length]; lia].
      exfalso. destruct (Hn eq_refl) as [_ ->].
      rewrite (len_lines tags Hne) in Hl. lia.
Qed.

End Packing.

(* ================================================================== *)
(** * Mention responder on a platform that does not fail *)

Section Responder.

Variable env : Env.
Variable m : Message.
Hypothesis Hrel : reliable env.

Let bot := bot_username env.
Let cid := str_of_int (chat_id (chat m)).

Lemma replies_app (a b : list event) : replies (a ++ b) = replies a ++ replies b.
Proof.
  induction a as [|e a IH]; [reflexivity|].
  destruct e; cbn [app replies]; now rewrite ?IH.
Qed.

Lemma replies_part_events (parts : list string) :
  replies (part_events m parts) = parts.
Proof.
  induction parts as [|p parts IH]; [reflexivity|].
  change (replies (part_events m (p :: parts)))
    with (p :: replies (part_events m parts)).
  now rewrite IH.
Qed.

Lemma send_parts_run (parts : list string) : forall w,
  send_parts env m parts w
  = (Ret tt, {| fs := fs w; api_calls := api_calls w + length parts;
                trace := trace w ++ part_events m parts |}).
Proof.
  induction parts as [|p parts IH]; intro w; cbn [send_parts].
  - unfold ret. cbn [length part_events flat_map].
    rewrite Nat.add_0_r, app_nil_r. now destruct w.
  - rewrite (bind_ret_run _ _ _ _ _ (reply_ok env m p w (Hrel _))).
    unfold sleep. unfold bind at 1. cbn [emit].
    rewrite IH. cbn [fs api_calls trace length part_events flat_map].
    rewrite <- !app_assoc. cbn [app]. f_equal. f_equal. lia.
Qed.

Lemma is_nil_false {A} (l : list A) : l <> [] -> is_nil l = false.
Proof. now destruct l. Qed.

(** Stored members are tagged without asking for the administrators. *)
Lemma choose_tags_members (w : World) (R : dict) :
  stored w = Some R ->
  tag_members (dict_get_default R cid) bot <> [] ->
  choose_tags env m w
  = (Ret (Some (tag_members (dict_get_default R cid) bot)), after w [EvRead]).
Proof.
  intros H Hne. unfold choose_tags, bind at 1.
  rewrite load_members_run, H. fold bot. fold cid.
  now rewrite (is_nil_false _ Hne).
Qed.

(** Without stored members the administrators are tagged. *)
Lemma choose_tags_admins (w : World) (R : dict) :
  stored w = Some R ->
  tag_members (dict_get_default R cid) bot = [] ->
  tag_admins (administrators env (chat_id (chat m))) bot <> [] ->
  choose_tags env m w
  = (Ret (Some (tag_admins (administrators env (chat_id (chat m))) bot)),
     {| fs := fs w; api_calls := S (api_calls w);
        trace := trace w ++ [EvRead; EvAdmins (chat_id (chat m))] |}).
Proof.
  intros H He Hne. unfold choose_tags, bind at 1.
  rewrite load_members_run, H. fold bot. fold cid. rewrite He. cbn [is_nil].
  rewrite (bind_ret_run _ _ _ _ _ (admins_ok env _ _ (Hrel _))).
  rewrite (is_nil_false _ Hne). unfold ret, after.
  cbn [fs api_calls trace]. now rewrite <- app_assoc.
Qed.

(** Without members and eligible administrators the notice is sent. *)
Lemma choose_tags_nobody (w : World) (R : dict) :
  stored w = Some R ->
  tag_members (dict_get_default R cid) bot = [] ->
  tag_admins (administrators env (chat_id (chat m))) bot = [] ->
  choose_tags env m w
  = (Ret None,
     {| fs := fs w; api_calls := S (S (api_calls w));
        trace := trace w ++ [EvRead; EvAdmins (chat_id (chat m));
                             EvReply (reply_of m no_members_notice)] |}).
Proof.
  intros H He He'. unfold choose_tags, bind at 1.
  rewrite load_members_run, H. fold bot. fold cid. rewrite He. cbn [is_nil].
  rewrite (bind_ret_run _ _ _ _ _ (admins_ok env _ _ (Hrel _))).
  rewrite He'. cbn [is_nil].
  rewrite (bind_ret_run _ _ _ _ _ (reply_ok env m _ _ (Hrel _))).
  unfold ret, after. cbn [fs api_calls trace]. now rewrite <- !app_assoc.
Qed.

Lemma send_tags_short (tags : list string) (w : World) :
  len (join (chr nl) tags) <= max_length ->
  send_tags env m tags w
  = (Ret tt, {| fs := fs w; api_calls := S (api_calls w);
                trace := trace w ++ [EvReply (reply_of m (join (chr nl) tags));
                                     tagged_log m tags] |}).
Proof.
  intro H. unfold send_tags.
  apply Nat.ltb_ge in H. rewrite H.
  rewrite (bind_ret_run _ _ _ _ _ (reply_ok env m _ _ (Hrel _))).
  unfold logger_info, emit, tagged_log. cbn [fs api_calls trace].
  now rewrite <- app_assoc.
Qed.

Lemma send_tags_long (tags : list string) (w : World) :
  max_length < len (join (chr nl) tags) ->
  send_tags env m tags w
  = (Ret tt, {| fs := fs w;
                api_calls := api_calls w + length (split_parts tags);
                trace := trace w ++ part_events m (split_parts tags)
                                 ++ [tagged_log m tags] |}).
Proof.
  intro H. unfold send_tags.
  apply Nat.ltb_lt in H. rewrite H.
  rewrite (bind_ret_run _ _ _ _ _ (send_parts_run _ _)).
  unfold logger_info, emit, tagged_log. cbn [fs api_calls trace].
  now rewrite <- app_assoc.
Qed.

End Responder.

(* ================================================================== *)
(** * Responses to a mention *)

Section Responses.

Lemma tag_all_mention (env : Env) (u : Update) (w : World) :
  is_mention env u ->
  tag_all env u w
  = try_telegram (respond env (message u)) (on_telegram_error env (message u)) w.
Proof. intros [Hg [Ht Hm]]. unfold tag_all. now rewrite Hg, Ht, Hm. Qed.

Lemma tag_all_sends (env : Env) (u : Update) (w w1 w2 : World)
    (tags : list string) :
  is_mention env u ->
  choose_tags env (message u) w = (Ret (Some tags), w1) ->
  send_tags env (message u) tags w1 = (Ret tt, w2) ->
  tag_all env u w = (Ret tt, w2).
Proof.
  intros Hm Hc Hs. rewrite (tag_all_mention env u w Hm).
  unfold try_telegram, respond.
  rewrite (bind_ret_run _ _ _ _ _ Hc), Hs. reflexivity.
Qed.

Lemma tag_members_spec (l : list string) (bot : string) :
  tag_members l bot
  = map (String.append "@") (filter (fun h => negb (String.eqb h bot)) l).
Proof.
  induction l as [|h l IH]; [reflexivity|].
  cbn [tag_members filter]. destruct (negb (String.eqb h bot)); cbn [map];
    now rewrite IH.
Qed.

Lemma tag_admins_spec (admins : list ChatMember) (bot t : string) :
  In t (tag_admins admins bot) <->
  exists a h, In a admins /\ is_bot (user a) = false /\
              username (user a) = Some h /\ h <> "" /\ h <> bot /\
              t = "@" +++ h.
Proof.
  induction admins as [|a admins IH]; cbn [tag_admins].
  - split; [intros [] | intros [a [h [[] _]]]].
  - destruct a as [[o b]]. cbn [user is_bot username].
    assert (Hcond :
      negb b && truthy o && negb (String.eqb (handle o) bot) = true <->
      b = false /\ exists h, o = Some h /\ h <> "" /\ h <> bot).
    { destruct b; cbn [negb andb].
      - split; [discriminate | now intros [? _]].
      - destruct o as [h|]; cbn [truthy handle andb].
        + destruct h as [|c h]; cbn [nonempty andb].
          * split; [discriminate|]. intros [_ [h' [[= <-] [Hn _]]]]. congruence.
          * destruct (String.eqb_spec (String c h) bot) as [E|E]; cbn [negb].
            -- split; [discriminate|]. intros [_ [h' [[= <-] [_ Hn]]]]. congruence.
            -- split; [|reflexivity]. intros _. split; [reflexivity|].
               exists (String c h). repeat split; [discriminate | exact E].
        + split; [discriminate|]. now intros [_ [h' [[=] _]]]. }
    destruct (negb b && truthy o && negb (String.eqb (handle o) bot)) eqn:E.
    + destruct (proj1 Hcond eq_refl) as [-> [h [-> [Hne Hnb]]]].
      cbn [handle In]. rewrite IH. split.
      * intros [<-|[a [h' [Hin Hrest]]]].
        -- eexists. exists h. split; [left; reflexivity|].
           cbn [user is_bot username]. now repeat split.
        -- exists a, h'. split; [right; exact Hin | exact Hrest].
      * intros [a [h' [[<-|Hin] [Hb [Hu [Hn [Hn' ->]]]]]]].
        -- cbn [user username] in Hu. injection Hu as ->. now left.
        -- right. exists a, h'. now repeat split.
    + rewrite IH. split.
      * intros [a [h' [Hin Hrest]]]. exists a, h'. split; [right; exact Hin | exact Hrest].
      * intros [a [h' [[<-|Hin] [Hb [Hu [Hn [Hn' ->]]]]]]].
        -- cbn [user is_bot username] in *. subst.
           assert (Habs : false = true); [|discriminate].
           apply Hcond. split; [reflexivity|]. now exists h'.
        -- exists a, h'. now repeat split.
Qed.

(** A tag list from the stored members that is short enough goes out as
    one reply. *)
Lemma reply_with_members (env : Env) (u : Update) (w : World) (R : dict) :
  is_mention env u -> reliable env -> stored w = Some R ->
  tag_members (dict_get_default R (str_of_int (chat_id (chat (message u)))))
              (bot_username env) <> [] ->
  len (join (chr nl)
         (tag_members
            (dict_get_default R (str_of_int (chat_id (chat (message u)))))
            (bot_username env))) <= max_length ->
  tag_all env u w
  = (Ret tt,
     {| fs := fs w; api_calls := S (api_calls w);
        trace := trace w ++
          [EvRead;
           EvReply (reply_of (message u)
             (join (chr nl)
                (tag_members
                   (dict_get_default R
                      (str_of_int (chat_id (chat (message u)))))
                   (bot_username env))));
           tagged_log (message u)
             (tag_members
                (dict_get_default R
                   (str_of_int (chat_id (chat (message u)))))
                (bot_username env))] |}).
Proof.
  intros Hm Hrel HR Hne Hlen.
  rewrite (tag_all_sends env u w _ _ _ Hm
             (choose_tags_members env (message u) w R HR Hne)
             (send_tags_short env (message u) Hrel _ _ Hlen)).
  unfold after. cbn [fs api_calls trace]. now rewrite <- app_assoc.
Qed.

(** C6.  In a group whose stored list gives a non-empty tag list of at
    most 4000 characters once joined, a mention is answered, on a platform
    that delivers, by exactly one reply whose body is that tag list joined
    by newlines; the tag list is the stored handles other than the bot's
    own, in stored order, each behind an at-sign; and with the list alice,
    bob, carol stored for chat 123 and the bot handle mybot the one reply
    is the three tags on three lines. *)
Theorem mention_tags_stored_members :
  (forall env u w R,
      is_mention env u -> reliable env -> stored w = Some R ->
      tag_members (dict_get_default R (str_of_int (chat_id (chat (message u)))))
                  (bot_username env) <> [] ->
      len (join (chr nl)
             (tag_members
                (dict_get_default R (str_of_int (chat_id (chat (message u)))))
                (bot_username env))) <= max_length ->
      exists w',
        tag_all env u w = (Ret tt, w') /\
        replies (trace w')
        = replies (trace w)
          ++ [join (chr nl)
                (tag_members
                   (dict_get_default R
                      (str_of_int (chat_id (chat (message u)))))
                   (bot_username env))]) /\
  (forall l bot,
      tag_members l bot
      = map (String.append "@") (filter (fun h => negb (String.eqb h bot)) l)) /\
  (forall env u w,
      is_mention env u -> reliable env -> bot_username env = "mybot" ->
      chat_id (chat (message u)) = 123%Z ->
      stored w = Some [("123", ["alice"; "bob"; "carol"])] ->
      exists w',
        tag_all env u w = (Ret tt, w') /\
        replies (trace w')
        = replies (trace w)
          ++ ["@alice" +++ chr nl +++ "@bob" +++ chr nl +++ "@carol"]).
Proof.
  split; [|split; [exact tag_members_spec|]].
  - intros env u w R Hm Hrel HR Hne Hlen.
    eexists. split; [apply (reply_with_members env u w R Hm Hrel HR Hne Hlen)|].
    cbn [trace]. now rewrite replies_app.
  - intros env u w Hm Hrel Hbot Hchat HR.
    eexists. split.
    + apply (reply_with_members env u w _ Hm Hrel HR); rewrite Hbot, Hchat.
      * discriminate.
      * vm_compute. lia.
    + cbn [trace]. rewrite replies_app, Hbot, Hchat. reflexivity.
Qed.

(** A tag list from the administrators that is short enough goes out as
    one reply, after the administrator query. *)
Lemma reply_with_admins (env : Env) (u : Update) (w : World) (R : dict) :
  is_mention env u -> reliable env -> stored w = Some R ->
  tag_members (dict_get_default R (str_of_int (chat_id (chat (message u)))))
              (bot_username env) = [] ->
  tag_admins (administrators env (chat_id (chat (message u))))
             (bot_username env) <> [] ->
  len (join (chr nl)
         (tag_admins (administrators env (chat_id (chat (message u))))
                     (bot_username env))) <= max_length ->
  tag_all env u w
  = (Ret tt,
     {| fs := fs w; api_calls := S (S (api_calls w));
        trace := trace w ++
          [EvRead; EvAdmins (chat_id (chat (message u)));
           EvReply (reply_of (message u)
             (join (chr nl)
                (tag_admins (administrators env (chat_id (chat (message u))))
                            (bot_username env))));
           tagged_log (message u)
             (tag_admins (administrators env (chat_id (chat (message u))))
                         (bot_username env))] |}).
Proof.
  intros Hm Hrel HR He Hne Hlen.
  rewrite (tag_all_sends env u w _ _ _ Hm
             (choose_tags_admins env (message u) Hrel w R HR He Hne)
             (send_tags_short env (message u) Hrel _ _ Hlen)).
  cbn [fs api_calls trace]. now rewrite <- app_assoc.
Qed.

(** C7.  The fallback tag list holds exactly the tags of the
    administrators that are not bots and have a non-empty handle other
    than the bot's own; for the administrators dave, a bot, and one
    without a handle it is the single tag of dave; and a mention in a chat
    whose stored list is empty is answered, on a platform that delivers,
    from that list (here when it is non-empty and short enough for one
    reply). *)
Theorem admins_fallback :
  (forall admins bot t,
      In t (tag_admins admins bot) <->
      exists a h, In a admins /\ is_bot (user a) = false /\
                  username (user a) = Some h /\ h <> "" /\ h <> bot /\
                  t = "@" +++ h) /\
  (forall bot o,
      bot <> "dave" ->
      tag_admins [dave_admin; bot_admin o; anonymous_admin] bot = ["@dave"]) /\
  (forall env u w R,
      is_mention env u -> reliable env -> stored w = Some R ->
      dict_get_default R (str_of_int (chat_id (chat (message u)))) = [] ->
      tag_admins (administrators env (chat_id (chat (message u))))
                 (bot_username env) <> [] ->
      len (join (chr nl)
             (tag_admins (administrators env (chat_id (chat (message u))))
                         (bot_username env))) <= max_length ->
      exists w',
        tag_all env u w = (Ret tt, w') /\
        replies (trace w')
        = replies (trace w)
          ++ [join (chr nl)
                (tag_admins (administrators env (chat_id (chat (message u))))
                            (bot_username env))]).
Proof.
  split; [exact tag_admins_spec|]. split.
  - intros bot o Hne. cbn [tag_admins dave_admin bot_admin anonymous_admin
      user is_bot username truthy nonempty handle negb andb].
    destruct (String.eqb_spec "dave" bot) as [E|_]; [congruence | reflexivity].
  - intros env u w R Hm Hrel HR He Hne Hlen.
    eexists. split.
    + apply (reply_with_admins env u w R Hm Hrel HR); [|exact Hne|exact Hlen].
      now rewrite He.
    + cbn [trace]. now rewrite replies_app.
Qed.


(** C1, amended.  When the tag list of a response has more than 4000
    characters once joined and each of its entries is shorter than 4000
    characters and ends in a character that is not whitespace, a mention
    is answered, on a platform that delivers, by at least two replies, of
    at most 4000 characters each; every reply is a group of whole entries
    joined by newlines, the groups put end to end are the tag list, and
    the replies joined by newlines are the joined tag list. *)
Theorem long_list_is_split (env : Env) (u : Update) (w : World) (R : dict) :
  is_mention env u -> reliable env -> stored w = Some R ->
  Forall fits (response_tags env R (message u)) ->
  max_length < len (join (chr nl) (response_tags env R (message u))) ->
  exists w' groups,
    tag_all env u w = (Ret tt, w') /\
    replies (trace w') = replies (trace w) ++ map (join (chr nl)) groups /\
    2 <= length groups /\
    Forall (fun part => len part <= max_length) (map (join (chr nl)) groups) /\
    Forall (fun g => g <> []) groups /\
    concat groups = response_tags env R (message u) /\
    join (chr nl) (map (join (chr nl)) groups)
    = join (chr nl) (response_tags env R (message u)).
Proof.
  intros Hm Hrel HR Hfit Hlong.
  destruct (split_parts_groups _ Hfit Hlong) as [groups [Hs [Hc [Hch Hn]]]].
  assert (Hne : response_tags env R (message u) <> []).
  { intro E. rewrite E in Hlong. unfold max_length, len in Hlong.
    simpl in Hlong. lia. }
  assert (Hgs : Forall (fun g : list string => g <> []) groups).
  { revert Hch. apply Forall_impl. now intros g [H _]. }
  assert (Hchoose : exists w1,
    choose_tags env (message u) w
    = (Ret (Some (response_tags env R (message u))), w1) /\
    replies (trace w1) = replies (trace w)).
  { unfold response_tags in *.
    destruct (tag_members
                (dict_get_default R (str_of_int (chat_id (chat (message u)))))
                (bot_username env)) as [|t ts] eqn:Et; cbn [is_nil] in *.
    - eexists. split;
        [apply (choose_tags_admins env (message u) Hrel w R HR Et Hne)|].
      cbn [trace]. rewrite replies_app. cbn [replies]. apply app_nil_r.
    - eexists. split;
        [rewrite <- Et; apply (choose_tags_members env (message u) w R HR);
         rewrite Et; discriminate|].
      cbn [after trace]. rewrite replies_app. cbn [replies]. apply app_nil_r. }
  destruct Hchoose as [w1 [Hchoose Hr1]].
  eexists. exists groups. split.
  - apply (tag_all_sends env u w w1 _ _ Hm Hchoose).
    apply (send_tags_long env (message u) Hrel _ _ Hlong).
  - cbn [trace]. rewrite !replies_app, replies_part_events, Hr1, Hs.
    cbn [replies tagged_log]. rewrite app_nil_r.
    split; [reflexivity|]. split; [exact Hn|]. split.
    { apply Forall_map. revert Hch. apply Forall_impl. now intros g [_ H]. }
    split; [exact Hgs|]. split; [exact Hc|].
    now rewrite (join_concat _ _ Hgs), Hc.
Qed.

End Responses.

(* ================================================================== *)
(** * What the mention responder never does *)

Section Tame.

Variable env : Env.

Lemma tame_ret {A} (a : A) : tame env (ret a).
Proof.
  intro w. cbn. repeat split; auto.
  - exists []. now rewrite app_nil_r.
  - discriminate.
  - discriminate.
Qed.

Lemma tame_emit (e : event) : passive e = true -> tame env (emit e).
Proof.
  intros He w. cbn. split; [reflexivity|]. split; [apply le_n|]. split.
  - exists [e]. cbn. now rewrite He.
  - discriminate.
Qed.

Lemma tame_api_call : tame env (api_call env).
Proof.
  intro w. unfold api_call.
  destruct (fault env (api_calls w)) as [e|] eqn:E; cbn;
    (split; [reflexivity|]); (split; [lia|]); split;
    try (exists []; now rewrite app_nil_r); try discriminate.
  intros e' [= <-]. split; [lia | exact E].
Qed.

Lemma tame_load_members : tame env load_members.
Proof.
  intro w. rewrite load_members_run. cbn. split; [reflexivity|].
  split; [apply le_n|]. split; [now exists [EvRead]|].
  intros e. destruct (stored w); discriminate.
Qed.

Lemma tame_bind {A B} (c : M A) (k : A -> M B) :
  tame env c -> (forall a, tame env (k a)) -> tame env (bind c k).
Proof.
  intros Hc Hk w. unfold bind.
  destruct (Hc w) as [Hfs [Hn [[evs [Ht Hp]] Hr]]].
  destruct (c w) as [[a|e] w1]; cbn [fst snd] in *.
  - destruct (Hk a w1) as [Hfs' [Hn' [[evs' [Ht' Hp']] Hr']]].
    split; [congruence|]. split; [lia|]. split.
    + exists (evs ++ evs'). rewrite Ht', Ht, app_assoc. split; [reflexivity|].
      now rewrite forallb_app, Hp, Hp'.
    + intros e He. destruct (Hr' e He). split; [lia | assumption].
  - split; [exact Hfs|]. split; [exact Hn|]. split; [now exists evs|].
    intros e' [= ->]. now apply Hr.
Qed.

Lemma tame_try {A} (c : M A) (h : string -> M A) :
  tame env c -> (forall e, tame env (h e)) -> tame env (try_telegram c h).
Proof.
  intros Hc Hh w. unfold try_telegram.
  destruct (Hc w) as [Hfs [Hn [[evs [Ht Hp]] Hr]]].
  destruct (c w) as [[a|[e|]] w1]; cbn [fst snd] in *.
  - split; [exact Hfs|]. split; [exact Hn|]. split; [now exists evs | exact Hr].
  - destruct (Hh e w1) as [Hfs' [Hn' [[evs' [Ht' Hp']] Hr']]].
    split; [congruence|]. split; [lia|]. split.
    + exists (evs ++ evs'). rewrite Ht', Ht, app_assoc. split; [reflexivity|].
      now rewrite forallb_app, Hp, Hp'.
    + intros e' He. destruct (Hr' e' He). split; [lia | assumption].
  - split; [exact Hfs|]. split; [exact Hn|]. split; [now exists evs | exact Hr].
Qed.

Ltac tame_steps :=
  repeat first
    [ apply tame_bind; [|intro]
    | apply tame_ret
    | apply tame_api_call
    | apply tame_load_members
    | apply tame_emit; reflexivity ].

Lemma tame_reply (m : Message) (t : string) : tame env (reply env m t).
Proof. unfold reply, reply_text. tame_steps. Qed.

Lemma tame_admins (c : Z) : tame env (get_chat_administrators env c).
Proof. unfold get_chat_administrators. tame_steps. Qed.

Lemma tame_send_parts (m : Message) (parts : list string) :
  tame env (send_parts env m parts).
Proof.
  induction parts as [|p parts IH]; cbn [send_parts].
  - apply tame_ret.
  - apply tame_bind; [apply tame_reply | intros _].
    apply tame_bind; [apply tame_emit; reflexivity | intros _; exact IH].
Qed.

Lemma tame_choose_tags (m : Message) : tame env (choose_tags env m).
Proof.
  unfold choose_tags. apply tame_bind; [apply tame_load_members | intro members].
  destruct (is_nil _); [|apply tame_ret].
  apply tame_bind; [apply tame_admins | intro admins].
  destruct (is_nil _); [|apply tame_ret].
  apply tame_bind; [apply tame_reply | intros _; apply tame_ret].
Qed.

Lemma tame_send_tags (m : Message) (tags : list string) :
  tame env (send_tags env m tags).
Proof.
  unfold send_tags. apply tame_bind.
  - destruct (_ <? _)%nat; [apply tame_send_parts | apply tame_reply].
  - intros _. apply tame_emit. reflexivity.
Qed.

Lemma tame_respond (m : Message) : tame env (respond env m).
Proof.
  unfold respond. apply tame_bind; [apply tame_choose_tags | intros [tags|]].
  - apply tame_send_tags.
  - apply tame_ret.
Qed.

Lemma tame_on_telegram_error (m : Message) (e : string) :
  tame env (on_telegram_error env m e).
Proof.
  unfold on_telegram_error. apply tame_bind.
  - apply tame_emit. reflexivity.
  - intros _. apply tame_reply.
Qed.

End Tame.

(* ================================================================== *)
(** * Mentions: no tracking, error handling, letter case *)

Section Mentions.

Lemma tame_tag_all_mention (env : Env) (u : Update) :
  tame env (try_telegram (respond env (message u))
                         (on_telegram_error env (message u))).
Proof.
  apply tame_try; [apply tame_respond | intro e; apply tame_on_telegram_error].
Qed.

(** C10.  Handling a message whose text contains the bot's handle, in any
    letter case, leaves the file as it was and adds no tracker entry and
    no file write to the trace, whatever the chat, the sender and the
    platform do. *)
Theorem mention_never_tracks (env : Env) (u : Update) (w : World) (t : string) :
  text (message u) = Some t ->
  mentions (bot_username env) t = true ->
  fs (snd (tag_all env u w)) = fs w /\
  exists evs,
    trace (snd (tag_all env u w)) = trace w ++ evs /\
    ~ In EvTrack evs /\ (forall c, ~ In (EvWrite c) evs).
Proof.
  intros Ht Hm.
  assert (H : fs (snd (tag_all env u w)) = fs w /\
              exists evs, trace (snd (tag_all env u w)) = trace w ++ evs /\
                          forallb passive evs = true).
  { unfold tag_all. rewrite Ht. cbn [handle]. rewrite Hm.
    destruct (in_group (chat (message u)) && truthy (Some t)).
    - destruct (tame_tag_all_mention env u w) as [Hfs [_ [Hev _]]].
      now split.
    - cbn. split; [reflexivity|]. exists []. now rewrite app_nil_r. }
  destruct H as [Hfs [evs [Hev Hp]]].
  split; [exact Hfs|]. exists evs. split; [exact Hev|].
  rewrite forallb_forall in Hp.
  split; [|intro c]; intro Hin; apply Hp in Hin; discriminate.
Qed.

(** C2, amended.  When the response to a mention raises a platform error,
    that error is the one the last platform call of the response failed
    with; the handler catches it, logs it with its cause and attempts the
    generic failure reply once.  If the platform delivers that reply, it is the only thing
    sent after the failure and the handler returns; if the platform
    refuses it too, the second error leaves the handler. *)
Theorem telegram_error_is_reported (env : Env) (u : Update) (w w1 : World)
    (e : string) :
  is_mention env u ->
  respond env (message u) w = (Raise (TelegramError e), w1) ->
  (api_calls w < api_calls w1 /\ fault env (pred (api_calls w1)) = Some e) /\
  (fault env (api_calls w1) = None ->
   tag_all env u w
   = (Ret tt,
      {| fs := fs w1; api_calls := S (api_calls w1);
         trace := trace w1 ++
           [EvLog ERROR ("Error tagging members: " +++ e);
            EvReply (reply_of (message u) failure_notice)] |})) /\
  (forall e', fault env (api_calls w1) = Some e' ->
   tag_all env u w
   = (Raise (TelegramError e'),
      {| fs := fs w1; api_calls := S (api_calls w1);
         trace := trace w1 ++
           [EvLog ERROR ("Error tagging members: " +++ e)] |})).
Proof.
  intros Hm Hr. split.
  - destruct (tame_respond env (message u) w) as [_ [_ [_ Hc]]].
    rewrite Hr in Hc. exact (Hc e eq_refl).
  - rewrite (tag_all_mention env u w Hm). unfold try_telegram. rewrite Hr.
    unfold on_telegram_error, logger_error. split.
    + intro Hok. unfold bind at 1. cbn [emit].
      rewrite reply_ok by exact Hok.
      cbn [fs api_calls trace]. now rewrite <- app_assoc.
    + intros e' Hbad. unfold bind at 1. cbn [emit].
      rewrite (reply_fail _ _ _ e') by exact Hbad.
      reflexivity.
Qed.

Lemma lower_append (a b : string) : lower (a +++ b) = lower a +++ lower b.
Proof. induction a as [|c a IH]; simpl; [reflexivity | now rewrite IH]. Qed.

Lemma capital_spec (c : ascii) :
  capital c = true <->
  ((65 <= N_of_ascii c <= 90) \/
   (192 <= N_of_ascii c <= 222 /\ N_of_ascii c <> 215))%N.
Proof.
  unfold capital.
  rewrite orb_true_iff, !andb_true_iff, negb_true_iff, !N.leb_le, N.eqb_neq.
  tauto.
Qed.

Lemma N_of_ascii_injective (a b : ascii) : N_of_ascii a = N_of_ascii b -> a = b.
Proof.
  intro H. rewrite <- (ascii_N_embedding a), <- (ascii_N_embedding b).
  now rewrite H.
Qed.

Lemma lower_char_code (c : ascii) :
  N_of_ascii (lower_char c)
  = (if capital c then N_of_ascii c + 32 else N_of_ascii c)%N.
Proof.
  unfold lower_char. fold (capital c).
  destruct (capital c) eqn:E; [|reflexivity].
  apply N_ascii_embedding. apply capital_spec in E. lia.
Qed.

(** [lower_char] identifies exactly the two cases of a letter. *)
Lemma lower_char_same (a b : ascii) :
  lower_char a = lower_char b <-> same_letter a b.
Proof.
  unfold same_letter. split.
  - intro H. apply (f_equal N_of_ascii) in H. rewrite !lower_char_code in H.
    destruct (capital a) eqn:Ea, (capital b) eqn:Eb.
    + left. apply N_of_ascii_injective. lia.
    + right. left. split; [reflexivity | lia].
    + right. right. split; [reflexivity | lia].
    + left. now apply N_of_ascii_injective.
  - intros [->|[[Ha E]|[Hb E]]]; [reflexivity| |];
      apply N_of_ascii_injective; rewrite !lower_char_code.
    + rewrite Ha. destruct (capital b) eqn:Eb; [|lia].
      apply capital_spec in Ha, Eb. lia.
    + rewrite Hb. destruct (capital a) eqn:Ea; [|lia].
      apply capital_spec in Hb, Ea. lia.
Qed.

(** [lower] identifies exactly the strings that differ at most in letter
    case. *)
Lemma lower_same (s t : string) : lower s = lower t <-> same_up_to_case s t.
Proof.
  split.
  - revert t. induction s as [|a s IH]; intros [|b t]; cbn [lower];
      try discriminate.
    + intros _. constructor.
    + intros [= Hc Hr]. constructor; [now apply lower_char_same | now apply IH].
  - induction 1 as [|a b s t Hc _ IH]; [reflexivity|]. cbn [lower].
    f_equal; [now apply lower_char_same | exact IH].
Qed.

Lemma lower_split (a b : string) : forall t,
  lower t = a +++ b ->
  exists t1 t2, t = t1 +++ t2 /\ lower t1 = a /\ lower t2 = b.
Proof.
  induction a as [|x a IH]; intros t H.
  - exists "", t. now repeat split.
  - destruct t as [|c t]; [discriminate|]. cbn [lower String.append] in H.
    injection H as Hc Hr. destruct (IH t Hr) as [t1 [t2 [-> [H1 H2]]]].
    exists (String c t1), t2. cbn [lower String.append].
    now rewrite Hc, H1.
Qed.

(** Detection is the search of the text for the handle in any letter
    case. *)
Lemma mentions_iff (bot txt : string) :
  mentions bot txt = true <->
  exists pre v post, txt = pre +++ v +++ post /\ same_up_to_case v bot.
Proof.
  unfold mentions. rewrite contains_iff. split.
  - intros [p [q H]].
    destruct (lower_split _ _ _ H) as [pre [rest [-> [_ Hrest]]]].
    destruct (lower_split _ _ _ Hrest) as [v [post [-> [Hv _]]]].
    exists pre, v, post. split; [reflexivity | now apply lower_same].
  - intros [pre [v [post [-> Hv]]]]. apply lower_same in Hv.
    exists (lower pre), (lower post). now rewrite !lower_append, Hv.
Qed.

(** C9.  A stored username that differs from the bot's handle, be it only
    in letter case, stays in the candidate tag list: exclusion compares
    the handles as they are.  Detection compares without regard to case:
    a text is detected as a mention exactly when it contains the handle
    in some letter case, so every text that contains such a stored
    variant is a mention. *)
Theorem case_variant_is_tagged (l : list string) (bot name : string) :
  In name l -> name <> bot -> same_up_to_case name bot ->
  In ("@" +++ name) (tag_members l bot) /\
  (forall pre post, mentions bot (pre +++ name +++ post) = true) /\
  (forall txt,
      mentions bot txt = true <->
      exists pre v post, txt = pre +++ v +++ post /\ same_up_to_case v bot).
Proof.
  intros Hin Hne Hsame. split; [|split].
  - rewrite tag_members_spec. apply in_map, filter_In. split; [exact Hin|].
    apply negb_true_iff, String.eqb_neq. exact Hne.
  - intros pre post. apply mentions_iff. now exists pre, name, post.
  - intro txt. apply mentions_iff.
Qed.

End Mentions.

(* ================================================================== *)
(** * Instances on the sample data *)

Section Samples.

Lemma fitsb_fits (l : list string) : forallb fitsb l = true -> Forall fits l.
Proof.
  intro H. apply Forall_forall. intros t Ht.
  rewrite forallb_forall in H. specialize (H t Ht).
  unfold fitsb in H. apply andb_true_iff in H. destruct H as [H1 H2].
  split; [exact H1 | now apply Nat.ltb_lt].
Qed.

Lemma one_chat_wf (k : string) (v : list string) : dict_wf [(k, v)].
Proof. repeat constructor. intros []. Qed.

Lemma save_then_load_witness :
  dict_wf two_chats /\
  (save_members two_chats ;; load_members) empty_world
  = (Ret two_chats,
     {| fs := Some (Json.dumps two_chats); api_calls := 0;
        trace := [EvWrite (Json.dumps two_chats); EvRead] |}).
Proof.
  assert (H : dict_wf two_chats).
  { unfold dict_wf, two_chats. simpl.
    repeat constructor; simpl; intuition discriminate. }
  split; [exact H | exact (save_then_load two_chats empty_world H)].
Defined.

Lemma track_members_idempotent_nodup_witness :
  store_ok empty_world /\
  (exists w1 w2 R1,
      track_members (sample_message dan "good morning") empty_world
      = (Ret tt, w1) /\
      track_members (sample_message dan "good morning") w1 = (Ret tt, w2) /\
      fs w2 = fs w1 /\ stored w1 = Some R1 /\ stored w2 = Some R1 /\
      (trackable (sample_message dan "good morning") = true ->
       In "dan" (dict_get_default R1 "123"))).
Proof.
  assert (H : store_ok empty_world).
  { exists []. split; [reflexivity | constructor]. }
  split; [exact H|].
  exact (proj1 (track_members_idempotent_nodup empty_world H)
               (sample_message dan "good morning")).
Defined.

Lemma track_members_guard_witness :
  is_bot (from_user (message (sample_message
            {| username := Some "helperbot"; is_bot := true |} "beep")))
  = true /\
  track_members
    (sample_message {| username := Some "helperbot"; is_bot := true |} "beep")
    sample_world
  = (Ret tt, {| fs := fs sample_world; api_calls := 0; trace := [EvTrack] |}).
Proof.
  split; [reflexivity|].
  apply (track_members_guard
           (sample_message {| username := Some "helperbot"; is_bot := true |}
                           "beep")
           sample_world).
  left. reflexivity.
Defined.

Lemma mention_tags_stored_members_witness :
  is_mention sample_env (sample_message dan "hey @MyBot, wake them up") /\
  reliable sample_env /\
  stored sample_world = Some sample_registry /\
  exists w',
    tag_all sample_env (sample_message dan "hey @MyBot, wake them up")
            sample_world = (Ret tt, w') /\
    replies (trace w')
    = ["@alice" +++ chr nl +++ "@bob" +++ chr nl +++ "@carol"].
Proof.
  assert (Hm : is_mention sample_env
                 (sample_message dan "hey @MyBot, wake them up"))
    by (repeat split; reflexivity).
  assert (Hrel : reliable sample_env) by (intro n; reflexivity).
  assert (Hs : stored sample_world = Some sample_registry)
    by (vm_compute; reflexivity).
  split; [exact Hm|]. split; [exact Hrel|]. split; [exact Hs|].
  apply (proj1 mention_tags_stored_members sample_env
           (sample_message dan "hey @MyBot, wake them up")
           sample_world sample_registry Hm Hrel Hs).
  - vm_compute. discriminate.
  - apply Nat.leb_le. vm_compute. reflexivity.
Defined.

Lemma admins_fallback_witness :
  is_mention admins_env (sample_message dan "hey @MyBot, wake them up") /\
  reliable admins_env /\
  stored empty_world = Some [] /\
  exists w',
    tag_all admins_env (sample_message dan "hey @MyBot, wake them up")
            empty_world = (Ret tt, w') /\
    replies (trace w') = ["@dave"].
Proof.
  assert (Hm : is_mention admins_env
                 (sample_message dan "hey @MyBot, wake them up"))
    by (repeat split; reflexivity).
  assert (Hrel : reliable admins_env) by (intro n; reflexivity).
  split; [exact Hm|]. split; [exact Hrel|].
  split; [reflexivity|].
  apply (proj2 (proj2 admins_fallback) admins_env
           (sample_message dan "hey @MyBot, wake them up")
           empty_world [] Hm Hrel eq_refl).
  - reflexivity.
  - vm_compute. discriminate.
  - apply Nat.leb_le. vm_compute. reflexivity.
Defined.


Lemma long_list_is_split_witness :
  is_mention sample_env (sample_message dan "hey @MyBot, wake them up") /\
  reliable sample_env /\
  stored (world_of crowded_registry) = Some crowded_registry /\
  Forall fits
    (response_tags sample_env crowded_registry
       (message (sample_message dan "hey @MyBot, wake them up"))) /\
  max_length
  < len (join (chr nl)
           (response_tags sample_env crowded_registry
              (message (sample_message dan "hey @MyBot, wake them up")))) /\
  exists w' groups,
    tag_all sample_env (sample_message dan "hey @MyBot, wake them up")
            (world_of crowded_registry) = (Ret tt, w') /\
    replies (trace w') = map (join (chr nl)) groups /\
    2 <= length groups /\
    Forall (fun part => len part <= max_length) (map (join (chr nl)) groups) /\
    Forall (fun g => g <> []) groups /\
    concat groups = map (String.append "@") many_members /\
    join (chr nl) (map (join (chr nl)) groups)
    = join (chr nl) (map (String.append "@") many_members).
Proof.
  assert (Hm : is_mention sample_env
                 (sample_message dan "hey @MyBot, wake them up"))
    by (repeat split; reflexivity).
  assert (Hrel : reliable sample_env) by (intro n; reflexivity).
  assert (Hs : stored (world_of crowded_registry) = Some crowded_registry)
    by (apply stored_saved, one_chat_wf).
  assert (Hf : Forall fits
    (response_tags sample_env crowded_registry
       (message (sample_message dan "hey @MyBot, wake them up"))))
    by (apply fitsb_fits; vm_compute; reflexivity).
  assert (Hl : max_length
    < len (join (chr nl)
             (response_tags sample_env crowded_registry
                (message (sample_message dan "hey @MyBot, wake them up")))))
    by (apply Nat.ltb_lt; vm_compute; reflexivity).
  assert (Ht : response_tags sample_env crowded_registry
                 (message (sample_message dan "hey @MyBot, wake them up"))
               = map (String.append "@") many_members)
    by (vm_compute; reflexivity).
  split; [exact Hm|]. split; [exact Hrel|]. split; [exact Hs|].
  split; [exact Hf|]. split; [exact Hl|].
  rewrite <- Ht.
  exact (long_list_is_split sample_env
           (sample_message dan "hey @MyBot, wake them up")
           (world_of crowded_registry) crowded_registry
           Hm Hrel Hs Hf Hl).
Defined.

(** C1, as stated, fails on entries that do not fit.  With a handle of
    4000 characters the second reply has 4001 characters; with a handle
    that ends in a space the replies joined by newlines are one character
    short of the joined tag list. *)
Lemma long_list_is_split_counterexample :
  (stored (world_of long_registry) = Some long_registry /\
   max_length
   < len (join (chr nl)
            (response_tags sample_env long_registry
               (message (sample_message dan "hey @MyBot, wake them up")))) /\
   map len
     (replies (trace (snd (tag_all sample_env
                             (sample_message dan "hey @MyBot, wake them up")
                             (world_of long_registry)))))
   = [2; 4001]) /\
  (stored (world_of spaced_registry) = Some spaced_registry /\
   max_length
   < len (join (chr nl)
            (response_tags sample_env spaced_registry
               (message (sample_message dan "hey @MyBot, wake them up")))) /\
   join (chr nl)
     (replies (trace (snd (tag_all sample_env
                             (sample_message dan "hey @MyBot, wake them up")
                             (world_of spaced_registry)))))
   <> join (chr nl)
        (response_tags sample_env spaced_registry
           (message (sample_message dan "hey @MyBot, wake them up")))).
Proof.
  split; (split; [apply stored_saved, one_chat_wf|]);
    (split; [apply Nat.ltb_lt; vm_compute; reflexivity|]).
  - vm_compute. reflexivity.
  - intro H. apply (f_equal len) in H. vm_compute in H. discriminate.
Qed.

Lemma telegram_error_is_reported_witness :
  is_mention hiccup_env (sample_message dan "hey @MyBot, wake them up") /\
  respond hiccup_env (message (sample_message dan "hey @MyBot, wake them up"))
          sample_world
  = (Raise (TelegramError "Timed out"),
     {| fs := fs sample_world; api_calls := 1; trace := [EvRead] |}) /\
  tag_all hiccup_env (sample_message dan "hey @MyBot, wake them up")
          sample_world
  = (Ret tt,
     {| fs := fs sample_world; api_calls := 2;
        trace :=
          [EvRead; EvLog ERROR "Error tagging members: Timed out";
           EvReply (reply_of
                      (message (sample_message dan "hey @MyBot, wake them up"))
                      failure_notice)] |}).
Proof.
  assert (Hm : is_mention hiccup_env
                 (sample_message dan "hey @MyBot, wake them up"))
    by (repeat split; reflexivity).
  assert (Hr : respond hiccup_env
                 (message (sample_message dan "hey @MyBot, wake them up"))
                 sample_world
               = (Raise (TelegramError "Timed out"),
                  {| fs := fs sample_world; api_calls := 1;
                     trace := [EvRead] |}))
    by (vm_compute; reflexivity).
  split; [exact Hm|]. split; [exact Hr|].
  exact (proj1 (proj2 (telegram_error_is_reported hiccup_env
                         (sample_message dan "hey @MyBot, wake them up")
                         sample_world _ _ Hm Hr))
               eq_refl).
Defined.

(** C2, as stated, fails on a platform that refuses every call: the error
    of the failure reply leaves the handler and no reply is delivered. *)
Lemma telegram_error_is_reported_counterexample :
  is_mention refusing_env (sample_message dan "hey @MyBot, wake them up") /\
  respond refusing_env
          (message (sample_message dan "hey @MyBot, wake them up"))
          sample_world
  = (Raise (TelegramError "Forbidden"),
     {| fs := fs sample_world; api_calls := 1; trace := [EvRead] |}) /\
  tag_all refusing_env (sample_message dan "hey @MyBot, wake them up")
          sample_world
  = (Raise (TelegramError "Forbidden"),
     {| fs := fs sample_world; api_calls := 2;
        trace := [EvRead; EvLog ERROR "Error tagging members: Forbidden"] |}).
Proof.
  split; [repeat split; reflexivity|].
  split; vm_compute; reflexivity.
Qed.

Lemma case_variant_is_tagged_witness :
  In "MyBot" ["alice"; "MyBot"] /\ "MyBot" <> "mybot" /\
  same_up_to_case "MyBot" "mybot" /\
  In "@MyBot" (tag_members ["alice"; "MyBot"] "mybot") /\
  mentions "mybot" "ping MyBot now" = true /\
  mentions "mybot" "ping my bot now" = false.
Proof.
  assert (Hin : In "MyBot" ["alice"; "MyBot"]) by (right; left; reflexivity).
  assert (Hne : "MyBot" <> "mybot") by discriminate.
  assert (Hsame : same_up_to_case "MyBot" "mybot")
    by (apply lower_same; reflexivity).
  split; [exact Hin|]. split; [exact Hne|]. split; [exact Hsame|].
  destruct (case_variant_is_tagged ["alice"; "MyBot"] "mybot" "MyBot"
              Hin Hne Hsame) as [H1 [H2 _]].
  split; [exact H1|]. split; [exact (H2 "ping " " now") | reflexivity].
Defined.

Lemma mention_never_tracks_witness :
  text (message (sample_message dan "hey @MyBot, wake them up"))
  = Some "hey @MyBot, wake them up" /\
  mentions (bot_username sample_env) "hey @MyBot, wake them up" = true /\
  fs (snd (tag_all sample_env (sample_message dan "hey @MyBot, wake them up")
                   sample_world))
  = fs sample_world /\
  trackable (sample_message dan "hey @MyBot, wake them up") = true.
Proof.
  split; [reflexivity|]. split; [reflexivity|].
  split; [|reflexivity].
  exact (proj1 (mention_never_tracks sample_env
                  (sample_message dan "hey @MyBot, wake them up")
                  sample_world "hey @MyBot, wake them up" eq_refl eq_refl)).
Defined.

End Samples.

(* ================================================================== *)
(** * Further properties of the member store and the tracker *)

Section TrackerMore.

Lemma dict_get_other (d : dict) (k k' : string) (v : list string) :
  k' <> k -> dict_get (dict_set d k v) k' = dict_get d k'.
Proof.
  intro Hne.
  induction d as [|[k0 v0] d IH]; simpl.
  - destruct (String.eqb_spec k k'); [congruence | reflexivity].
  - destruct (String.eqb_spec k0 k) as [->|H0]; simpl.
    + destruct (String.eqb_spec k k'); [congruence | reflexivity].
    + destruct (String.eqb_spec k0 k'); [reflexivity | exact IH].
Qed.

Lemma dict_get_none_fresh (d : dict) (k : string) :
  dict_get d k = None -> ~ In k (map fst d).
Proof.
  intros H Hin. apply dict_mem_In in Hin. unfold dict_mem in Hin.
  now rewrite H in Hin.
Qed.

Lemma track_undecodable (u : Update) (w : World) :
  trackable u = true -> stored w = None ->
  track_members u w = (Raise JSONDecodeError, after w [EvTrack; EvRead]).
Proof.
  unfold trackable, track_members. intros -> H.
  unfold bind at 1. cbn [emit].
  unfold bind at 1. rewrite load_members_run. unfold stored in *.
  cbn [fs] in *. rewrite H. unfold after. cbn [fs api_calls trace].
  now rewrite <- app_assoc.
Qed.




(** X2.  Outside group and supergroup chats, and for a message without
    text, the handler does nothing at all, even when the text names the
    bot and the sender could be tracked: the world is unchanged. *)
Theorem ignored_outside_groups (env : Env) (u : Update) (w : World) :
  (chat_type (chat (message u)) <> "group" /\
   chat_type (chat (message u)) <> "supergroup") \/
  text (message u) = None \/ text (message u) = Some "" ->
  tag_all env u w = (Ret tt, w).
Proof.
  intro H. unfold tag_all.
  assert (E : in_group (chat (message u)) && truthy (text (message u)) = false).
  { destruct H as [[H1 H2]|[H|H]].
    - unfold in_group, mem. cbn [existsb].
      destruct (String.eqb_spec (chat_type (chat (message u))) "group");
        [contradiction|].
      destruct (String.eqb_spec (chat_type (chat (message u))) "supergroup");
        [contradiction|].
      reflexivity.
    - rewrite H. apply andb_false_r.
    - rewrite H. apply andb_false_r. }
  now rewrite E.
Qed.

(** X3.  The first tracked message of a chat creates the chat's entry:
    when the registry has no entry for the chat, tracking returns and the
    file then holds the old entries, in their order, followed by the new
    chat with the sender as its only member. *)
Theorem first_message_creates_entry (u : Update) (w : World) (R : dict) :
  stored w = Some R -> trackable u = true ->
  dict_get R (str_of_int (chat_id (chat (message u)))) = None ->
  exists w',
    track_members u w = (Ret tt, w') /\
    stored w'
    = Some (R ++ [(str_of_int (chat_id (chat (message u))),
                   [handle (username (from_user (message u)))])]).
Proof.
  intros Hs Ht Hg.
  assert (Hm : mem (handle (username (from_user (message u))))
                 (dict_get_default R (str_of_int (chat_id (chat (message u)))))
               = false).
  { unfold dict_get_default. now rewrite Hg. }
  eexists. split; [apply (track_new u w R Ht Hs Hm)|].
  assert (E : with_member R (str_of_int (chat_id (chat (message u))))
                (handle (username (from_user (message u))))
              = R ++ [(str_of_int (chat_id (chat (message u))),
                       [handle (username (from_user (message u)))])]).
  { unfold with_member, dict_get_default. rewrite Hg. cbn [app].
    apply dict_set_fresh. now apply dict_get_none_fresh. }
  rewrite <- E. apply stored_saved, with_member_wf. exact (stored_wf w R Hs).
Qed.

(** X4.  Tracking a new sender in a chat that has an entry appends the
    handle at the end of that chat's list and changes nothing else: the
    chats and their order stay, and every other chat keeps its list. *)
Theorem new_member_is_appended (u : Update) (w : World) (R : dict)
    (l : list string) :
  stored w = Some R -> trackable u = true ->
  dict_get R (str_of_int (chat_id (chat (message u)))) = Some l ->
  ~ In (handle (username (from_user (message u)))) l ->
  exists w' R',
    track_members u w = (Ret tt, w') /\ stored w' = Some R' /\
    dict_get R' (str_of_int (chat_id (chat (message u))))
    = Some (l ++ [handle (username (from_user (message u)))]) /\
    map fst R' = map fst R /\
    forall k, k <> str_of_int (chat_id (chat (message u))) ->
              dict_get R' k = dict_get R k.
Proof.
  intros Hs Ht Hg Hn.
  assert (Hd : dict_get_default R (str_of_int (chat_id (chat (message u)))) = l).
  { unfold dict_get_default. now rewrite Hg. }
  assert (Hm : mem (handle (username (from_user (message u))))
                 (dict_get_default R (str_of_int (chat_id (chat (message u)))))
               = false).
  { rewrite Hd. destruct (mem _ l) eqn:E; [|reflexivity].
    apply mem_In in E. contradiction. }
  eexists. eexists. split; [apply (track_new u w R Ht Hs Hm)|].
  split; [apply stored_saved, with_member_wf; exact (stored_wf w R Hs)|].
  unfold with_member. rewrite Hd. split; [apply dict_get_set_same|]. split.
  - rewrite dict_set_keys. unfold dict_mem. now rewrite Hg.
  - intros k Hk. now apply dict_get_other.
Qed.

(** One tracking step only extends the lists of the registry. *)
Lemma track_extends (u : Update) (w : World) (R : dict) :
  stored w = Some R ->
  exists w' R',
    track_members u w = (Ret tt, w') /\ stored w' = Some R' /\
    forall k, exists more,
      dict_get_default R' k = dict_get_default R k ++ more.
Proof.
  intro H.
  destruct (track_cases u w R H) as [w' [E [[_ [Hst _]]|[_ [_ Hst]]]]].
  - exists w', R. repeat split; try assumption.
    intro k. exists []. now rewrite app_nil_r.
  - eexists. eexists. split; [exact E|]. split; [exact Hst|].
    intro k. unfold with_member.
    destruct (String.eqb_spec k (str_of_int (chat_id (chat (message u)))))
      as [->|Hne].
    + eexists. now rewrite dict_get_default_set_same.
    + exists []. rewrite app_nil_r. unfold dict_get_default.
      now rewrite dict_get_other.
Qed.

(** X5.  Tracking never removes or reorders what is stored: after any
    sequence of tracking steps from a file that decodes, each chat's list
    is its old list followed by the handles added since. *)
Theorem tracking_only_appends (us : list Update) (w : World) (R : dict) :
  stored w = Some R ->
  exists w' R',
    handle_all track_members us w = (Ret tt, w') /\ stored w' = Some R' /\
    forall k, exists more,
      dict_get_default R' k = dict_get_default R k ++ more.
Proof.
  revert w R. induction us as [|u us IH]; intros w R H; cbn [handle_all].
  - exists w, R. repeat split; try assumption.
    intro k. exists []. now rewrite app_nil_r.
  - destruct (track_extends u w R H) as [w1 [R1 [E1 [H1 Hx1]]]].
    destruct (IH w1 R1 H1) as [w' [R' [E' [H' Hx']]]].
    exists w', R'. split; [now rewrite (bind_ret_run _ _ _ _ _ E1)|].
    split; [exact H'|].
    intro k. destruct (Hx1 k) as [m1 E1k]. destruct (Hx' k) as [m2 E2k].
    exists (m1 ++ m2). now rewrite E2k, E1k, app_assoc.
Qed.

(** What tracking does to the call count and the trace, in every case. *)
Lemma track_effects (u : Update) (w : World) :
  exists evs,
    api_calls (snd (track_members u w)) = api_calls w /\
    trace (snd (track_members u w)) = trace w ++ evs /\
    Forall plain evs.
Proof.
  destruct (trackable u) eqn:Ht.
  - destruct (stored w) as [R|] eqn:Hs.
    + destruct (mem (handle (username (from_user (message u))))
                  (dict_get_default R (str_of_int (chat_id (chat (message u))))))
        eqn:Hm.
      * rewrite (track_known u w R Ht Hs Hm).
        eexists. split; [reflexivity|]. split; [reflexivity|].
        now repeat constructor.
      * rewrite (track_new u w R Ht Hs Hm).
        eexists. split; [reflexivity|]. split; [reflexivity|].
        now repeat constructor.
    + rewrite (track_undecodable u w Ht Hs).
      eexists. split; [reflexivity|]. split; [reflexivity|].
      now repeat constructor.
  - rewrite (track_skip u w Ht).
    eexists. split; [reflexivity|]. split; [reflexivity|].
    now repeat constructor.
Qed.

Lemma plain_no_replies (evs : list event) : Forall plain evs -> replies evs = [].
Proof.
  induction 1 as [|e evs He _ IH]; [reflexivity|].
  destruct e; cbn [replies]; try exact IH. destruct He.
Qed.

(** X6.  Tracking is silent: whatever the update and the state of the
    file, it makes no platform call, so it sends no reply and asks for no
    administrators; all it adds to the trace is its entry marker, file
    accesses and a log record. *)
Theorem tracking_is_silent (u : Update) (w : World) :
  api_calls (snd (track_members u w)) = api_calls w /\
  exists evs,
    trace (snd (track_members u w)) = trace w ++ evs /\
    Forall plain evs /\ replies evs = [].
Proof.
  destruct (track_effects u w) as [evs [Hcalls [Htrace Hplain]]].
  split; [exact Hcalls|].
  exists evs. split; [exact Htrace|]. split; [exact Hplain|].
  now apply plain_no_replies.
Qed.

Lemma tag_members_In (l : list string) (bot h : string) :
  In h l -> h <> bot -> In ("@" +++ h) (tag_members l bot).
Proof.
  intros Hin Hne. rewrite tag_members_spec. apply in_map, filter_In.
  split; [exact Hin|]. now apply negb_true_iff, String.eqb_neq.
Qed.

(** X7.  A tracked sender is tagged from then on: once a trackable update
    has been tracked, a response in the same chat, from any world whose
    file holds the registry just written, takes its tags from the stored
    members without an administrator query, and the sender's tag is among
    them, unless the sender's handle is the bot's own. *)
Theorem tracked_sender_is_tagged (env : Env) (u : Update) (w : World)
    (R : dict) :
  stored w = Some R -> trackable u = true ->
  handle (username (from_user (message u))) <> bot_username env ->
  exists w1 R1,
    track_members u w = (Ret tt, w1) /\ stored w1 = Some R1 /\
    forall m' w2,
      stored w2 = Some R1 ->
      chat_id (chat m') = chat_id (chat (message u)) ->
      exists tags,
        choose_tags env m' w2 = (Ret (Some tags), after w2 [EvRead]) /\
        In ("@" +++ handle (username (from_user (message u)))) tags.
Proof.
  intros Hs Ht Hne.
  destruct (track_twice u w R Hs) as [w1 [w2 [R1 [E1 [_ [_ [Hs1 Hin]]]]]]].
  exists w1, R1. split; [exact E1|]. split; [exact Hs1|].
  intros m' w' Hs' Hc.
  pose proof (tag_members_In _ (bot_username env) _ (Hin Ht) Hne) as Htag.
  rewrite <- Hc in Htag.
  eexists. split; [|exact Htag].
  apply (choose_tags_members env m' w' R1 Hs').
  intro E. rewrite E in Htag. destruct Htag.
Qed.

End TrackerMore.

(* ================================================================== *)
(** * Further properties of the packing loop *)

Section PackingMore.

Lemma greedy_extend (groups : list (list string)) (g : list string)
    (t : string) :
  greedy (groups ++ [g]) -> (g = [] -> groups = []) ->
  greedy (groups ++ [g ++ [t]]).
Proof.
  intros Hg Hne i a t0 b Ha Hb.
  destruct (Nat.lt_trichotomy (S i) (length groups)) as [Hlt|[Heq|Hgt]].
  - rewrite nth_error_app1 in Ha by lia. rewrite nth_error_app1 in Hb by lia.
    apply (Hg i a t0 b); rewrite nth_error_app1 by lia; assumption.
  - rewrite nth_error_app1 in Ha by lia.
    rewrite nth_error_app2, Heq, Nat.sub_diag in Hb by lia.
    cbn [nth_error] in Hb. injection Hb as Hb.
    destruct g as [|t1 g1].
    + rewrite (Hne eq_refl) in Heq. discriminate.
    + cbn [app] in Hb. injection Hb as -> <-.
      apply (Hg i a t0 g1).
      * now rewrite nth_error_app1 by lia.
      * now rewrite nth_error_app2, Heq, Nat.sub_diag by lia.
  - assert (Hnone : nth_error (groups ++ [g ++ [t]]) (S i) = None).
    { apply nth_error_None. rewrite length_app. cbn [length]. lia. }
    congruence.
Qed.

Lemma greedy_close (groups : list (list string)) (g : list string)
    (t : string) :
  greedy (groups ++ [g]) -> max_length <= len (join (chr nl) (g ++ [t])) ->
  greedy ((groups ++ [g]) ++ [[t]]).
Proof.
  intros Hg Hfull i a t0 b Ha Hb.
  assert (Hlen : length (groups ++ [g]) = S (length groups)).
  { rewrite length_app. cbn [length]. lia. }
  destruct (Nat.lt_trichotomy (S i) (S (length groups))) as [Hlt|[Heq|Hgt]].
  - rewrite nth_error_app1 in Ha by lia. rewrite nth_error_app1 in Hb by lia.
    now apply (Hg i a t0 b).
  - injection Heq as Heq. subst i.
    rewrite nth_error_app1 in Ha by lia.
    rewrite nth_error_app2, Nat.sub_diag in Ha by lia.
    rewrite nth_error_app2, Hlen, Nat.sub_diag in Hb by lia.
    cbn [nth_error] in *. injection Ha as <-. injection Hb as <- <-.
    exact Hfull.
  - assert (Hnone : nth_error ((groups ++ [g]) ++ [[t]]) (S i) = None).
    { apply nth_error_None. rewrite length_app, Hlen. cbn [length]. lia. }
    congruence.
Qed.

Lemma len_lines_snoc (g : list string) (t : string) :
  len (lines (g ++ [t])) = len (lines g) + len t + 1.
Proof. rewrite lines_snoc, !len_append. unfold len. simpl. lia. Qed.

Lemma len_join_snoc (g : list string) (t : string) :
  len (join (chr nl) (g ++ [t])) = len (lines g) + len t.
Proof.
  assert (H : g ++ [t] <> []) by (now destruct g).
  pose proof (len_lines (g ++ [t]) H) as E. rewrite len_lines_snoc in E. lia.
Qed.

(** The loop on strings is the loop on groups, as long as the entries
    fit. *)
Lemma split_fold_groups (tags : list string) :
  forall groups g,
    Forall fits tags -> Forall fits g ->
    fold_left split_step tags (map (join (chr nl)) groups, lines g)
    = (map (join (chr nl)) (fst (fold_left group_step tags (groups, g))),
       lines (snd (fold_left group_step tags (groups, g)))).
Proof.
  induction tags as [|t tags IH]; intros groups g Htags Hg; [reflexivity|].
  inversion Htags as [|? ? Ht Htags']; subst.
  cbn [fold_left]. unfold split_step at 2, group_step at 2 4.
  destruct (len (lines g) + len t + 1 <=? max_length)%nat eqn:E.
  - rewrite <- lines_snoc. apply IH; [exact Htags'|].
    apply Forall_app. split; [exact Hg | now constructor].
  - apply Nat.leb_gt in E.
    assert (Hne : g <> []).
    { intros ->. destruct Ht as [_ Ht]. cbn [lines] in E.
      unfold len in *. simpl in E. lia. }
    rewrite (rstrip_lines g Hne (fits_tidy g Hg)).
    change (map (join (chr nl)) groups ++ [join (chr nl) g])
      with (map (join (chr nl)) groups ++ map (join (chr nl)) [g]).
    rewrite <- map_app.
    change (t +++ chr nl) with (lines [] +++ t +++ chr nl).
    rewrite <- lines_snoc. apply IH; [exact Htags'|]. now constructor.
Qed.

Lemma pack_fold_inv (tags : list string) :
  forall groups g,
    Forall fits tags -> pack_inv groups g ->
    pack_inv (fst (fold_left group_step tags (groups, g)))
             (snd (fold_left group_step tags (groups, g))) /\
    concat (fst (fold_left group_step tags (groups, g)))
      ++ snd (fold_left group_step tags (groups, g))
    = concat groups ++ g ++ tags.
Proof.
  induction tags as [|t tags IH]; intros groups g Htags Hinv.
  - cbn [fold_left fst snd]. now rewrite app_nil_r.
  - inversion Htags as [|? ? Ht Htags']; subst.
    destruct Hinv as [Hg [Hlen [Hsm [Hnil Hgr]]]].
    cbn [fold_left]. unfold group_step at 2 4 6 8.
    destruct (len (lines g) + len t + 1 <=? max_length)%nat eqn:E.
    + apply Nat.leb_le in E.
      destruct (IH groups (g ++ [t]) Htags') as [Hi Hc].
      * split; [apply Forall_app; split; [exact Hg | now constructor]|].
        split; [rewrite len_lines_snoc; exact E|].
        split; [exact Hsm|].
        split; [intro Habs; now destruct g|].
        now apply greedy_extend.
      * split; [exact Hi|]. rewrite Hc. now rewrite <- app_assoc.
    + apply Nat.leb_gt in E.
      assert (Hne : g <> []).
      { intros ->. destruct Ht as [_ Ht]. cbn [lines] in E.
        unfold len in *. simpl in E. lia. }
      destruct (IH (groups ++ [g]) [t] Htags') as [Hi Hc].
      * split; [now constructor|].
        split; [destruct Ht as [_ Ht]; change [t] with ([] ++ [t]);
                rewrite len_lines_snoc; cbn [lines]; unfold len in *;
                simpl; lia|].
        split.
        { apply Forall_app. split; [exact Hsm|]. constructor; [|constructor].
          split; [exact Hne|]. rewrite (len_lines g Hne) in Hlen. lia. }
        split; [discriminate|].
        apply greedy_close; [exact Hgr|]. rewrite len_join_snoc. lia.
      * split; [exact Hi|]. rewrite Hc, concat_app. cbn [concat app].
        now rewrite app_nil_r, <- app_assoc.
Qed.

(** X8.  On entries that fit, the parts of a long response are the groups
    of the packing loop joined by newlines; the groups put end to end are
    the tag list; every part has fewer than 4000 characters; and the
    packing is greedy: no part could have taken the first entry of the
    next part without reaching 4000 characters. *)
Theorem packing_is_greedy (tags : list string) :
  Forall fits tags ->
  split_parts tags = map (join (chr nl)) (pack tags) /\
  concat (pack tags) = tags /\
  Forall (fun g => g <> [] /\ len (join (chr nl) g) < max_length) (pack tags) /\
  greedy (pack tags).
Proof.
  intro Hfit.
  assert (Hinv0 : pack_inv [] []).
  { split; [constructor|]. split; [unfold len, max_length; simpl; lia|].
    split; [constructor|]. split; [reflexivity|].
    intros i g t g' _ Hb. destruct i; discriminate. }
  destruct (pack_fold_inv tags [] [] Hfit Hinv0)
    as [[Hg [Hlen [Hsm [Hnil Hgr]]]] Hc].
  pose proof (split_fold_groups tags [] [] Hfit (Forall_nil _)) as Hs.
  unfold split_parts, pack. cbn [map lines] in Hs. rewrite Hs.
  destruct (fold_left group_step tags ([], [])) as [groups g].
  cbn [fst snd concat app] in *.
  destruct g as [|t g].
  - rewrite (Hnil eq_refl) in *. simpl in Hc. cbn.
    split; [reflexivity|]. split; [exact Hc|]. split; [constructor|].
    intros i g t g' Ha. destruct i; discriminate.
  - assert (Hne : t :: g <> []) by discriminate.
    assert (Hnon : nonempty (lines (t :: g)) = true).
    { apply nonempty_true. rewrite (lines_join _ Hne).
      apply append_nonempty_r. discriminate. }
    rewrite Hnon, (rstrip_lines _ Hne (fits_tidy _ Hg)). cbn [is_nil].
    split; [now rewrite map_app|].
    split; [rewrite concat_app; cbn [concat]; now rewrite app_nil_r|].
    split; [|exact Hgr].
    apply Forall_app. split; [exact Hsm|]. constructor; [|constructor].
    split; [exact Hne|]. rewrite (len_lines _ Hne) in Hlen. lia.
Qed.

Lemma split_step_nonempty (st : list string * string) (t : string) :
  nonempty (snd (split_step st t)) = true.
Proof.
  destruct st as [parts cur]. unfold split_step.
  destruct (_ <=? _)%nat; cbn [snd]; apply nonempty_true;
    repeat apply append_nonempty_r; discriminate.
Qed.

Lemma split_fold_nonempty (tags : list string) :
  forall st, tags <> [] \/ nonempty (snd st) = true ->
             nonempty (snd (fold_left split_step tags st)) = true.
Proof.
  induction tags as [|t tags IH]; intros st H; cbn [fold_left].
  - destruct H as [H|H]; [contradiction | exact H].
  - apply IH. right. apply split_step_nonempty.
Qed.

(** While no part has been closed, the running part holds every entry
    read, and the last one was taken because it fitted. *)
Lemma split_fold_count (tags : list string) :
  forall parts cur,
    length parts <= length (fst (fold_left split_step tags (parts, cur))) /\
    (length (fst (fold_left split_step tags (parts, cur))) = length parts ->
     tags <> [] -> len (cur +++ lines tags) <= max_length).
Proof.
  induction tags as [|t tags IH]; intros parts cur; cbn [fold_left].
  - cbn [fst]. split; [apply le_n | intros _ H; contradiction].
  - unfold split_step at 2 4.
    destruct (len cur + len t + 1 <=? max_length)%nat eqn:E.
    + destruct (IH parts (cur +++ t +++ chr nl)) as [Hle Heq].
      split; [exact Hle|]. intros Hlen _. cbn [lines].
      destruct tags as [|t' tags'].
      * apply Nat.leb_le in E. cbn [lines]. rewrite append_nil_r.
        rewrite !len_append. unfold len in *. simpl. simpl in E. lia.
      * specialize (Heq Hlen ltac:(discriminate)).
        now rewrite !append_assoc in Heq.
    + destruct (IH (parts ++ [rstrip cur]) (t +++ chr nl)) as [Hle _].
      rewrite length_app in Hle. cbn [length] in Hle.
      split; [lia | intros Hlen; lia].
Qed.

(** X9.  A tag list of more than 4000 characters once joined is always
    sent in at least two parts, whatever its entries are. *)
Theorem long_list_has_two_parts (tags : list string) :
  max_length < len (join (chr nl) tags) ->
  2 <= length (split_parts tags).
Proof.
  intro Hlong.
  assert (Hne : tags <> []).
  { intros ->. unfold max_length, len in Hlong. simpl in Hlong. lia. }
  unfold split_parts.
  pose proof (split_fold_nonempty tags ([], "") (or_introl Hne)) as Hnon.
  destruct (split_fold_count tags [] "") as [_ Hcount].
  destruct (fold_left split_step tags ([], "")) as [parts cur].
  cbn [fst snd length] in *. rewrite Hnon, length_app. cbn [length].
  destruct parts as [|p parts]; [|cbn [length]; lia].
  exfalso. specialize (Hcount eq_refl Hne). cbn [String.append] in Hcount.
  rewrite (len_lines tags Hne) in Hcount. lia.
Qed.

Lemma split_fold_prefix (tags : list string) :
  forall parts cur, exists more,
    fst (fold_left split_step tags (parts, cur)) = parts ++ more.
Proof.
  induction tags as [|t tags IH]; intros parts cur; cbn [fold_left].
  - exists []. cbn [fst]. now rewrite app_nil_r.
  - unfold split_step at 2. destruct (_ <=? _)%nat.
    + apply IH.
    + destruct (IH (parts ++ [rstrip cur]) (t +++ chr nl)) as [more ->].
      exists (rstrip cur :: more). now rewrite <- app_assoc.
Qed.

(** X10.  A first entry of 4000 characters or more does not fit the empty
    running part, so the loop closes that part as it is: the list of parts
    then starts with the empty string. *)
Theorem oversized_first_entry (t : string) (rest : list string) :
  max_length <= len t ->
  exists parts, split_parts (t :: rest) = "" :: parts.
Proof.
  intro Hbig. unfold split_parts. cbn [fold_left]. unfold split_step at 2.
  assert (E : (len "" + len t + 1 <=? max_length)%nat = false).
  { apply Nat.leb_gt. unfold len at 1. simpl. lia. }
  rewrite E. cbn [app rstrip].
  destruct (split_fold_prefix rest [""] (t +++ chr nl)) as [more Hm].
  destruct (fold_left split_step rest ([""], t +++ chr nl)) as [parts cur].
  cbn [fst] in Hm. subst parts.
  destruct (nonempty cur); cbn [app]; eexists; reflexivity.
Qed.

End PackingMore.

(* ================================================================== *)
(** * What every response adds to the trace *)

Section Emits.

Variable env : Env.
Variable m : Message.
Variable P : event -> Prop.
Hypothesis Hplain : forall e, plain e -> P e.
Hypothesis Hreply : forall t, P (EvReply (reply_of m t)).
Hypothesis Hquery : forall c, P (EvAdmins c).

Lemma emits_ret {A} (a : A) : emits P (ret a).
Proof. intro w. exists []. cbn. now rewrite app_nil_r. Qed.

Lemma emits_emit (e : event) : P e -> emits P (emit e).
Proof. intros He w. exists [e]. cbn. split; [reflexivity | now constructor]. Qed.

Lemma emits_api_call : emits P (api_call env).
Proof.
  intro w. exists []. unfold api_call.
  destruct (fault env (api_calls w)); cbn; now rewrite app_nil_r.
Qed.

Lemma emits_bind {A B} (c : M A) (k : A -> M B) :
  emits P c -> (forall a, emits P (k a)) -> emits P (bind c k).
Proof.
  intros Hc Hk w. unfold bind. destruct (Hc w) as [evs [Ht Hp]].
  destruct (c w) as [[a|e] w1]; cbn [snd] in *.
  - destruct (Hk a w1) as [evs' [Ht' Hp']].
    exists (evs ++ evs'). rewrite Ht', Ht, app_assoc.
    split; [reflexivity | now apply Forall_app].
  - now exists evs.
Qed.

Lemma emits_try {A} (c : M A) (h : string -> M A) :
  emits P c -> (forall e, emits P (h e)) -> emits P (try_telegram c h).
Proof.
  intros Hc Hh w. unfold try_telegram. destruct (Hc w) as [evs [Ht Hp]].
  destruct (c w) as [[a|[e|]] w1]; cbn [snd] in *.
  - now exists evs.
  - destruct (Hh e w1) as [evs' [Ht' Hp']].
    exists (evs ++ evs'). rewrite Ht', Ht, app_assoc.
    split; [reflexivity | now apply Forall_app].
  - now exists evs.
Qed.

Lemma emits_reply (t : string) : emits P (reply env m t).
Proof.
  unfold reply, reply_text. apply emits_bind; [apply emits_api_call|].
  intros _. apply emits_emit. apply Hreply.
Qed.

Lemma emits_send_parts (parts : list string) :
  emits P (send_parts env m parts).
Proof.
  induction parts as [|p parts IH]; cbn [send_parts]; [apply emits_ret|].
  apply emits_bind; [apply emits_reply | intros _].
  apply emits_bind; [|intros _; exact IH].
  apply emits_emit, Hplain. exact I.
Qed.

Lemma emits_send_tags (tags : list string) : emits P (send_tags env m tags).
Proof.
  unfold send_tags. apply emits_bind.
  - destruct (_ <? _)%nat; [apply emits_send_parts | apply emits_reply].
  - intros _. apply emits_emit, Hplain. exact I.
Qed.

Lemma emits_on_telegram_error (e : string) :
  emits P (on_telegram_error env m e).
Proof.
  unfold on_telegram_error. apply emits_bind; [|intros _; apply emits_reply].
  apply emits_emit, Hplain. exact I.
Qed.

Lemma emits_load_members : emits P load_members.
Proof.
  intro w. rewrite load_members_run. exists [EvRead].
  split; [reflexivity|]. constructor; [|constructor]. now apply Hplain.
Qed.

Lemma emits_choose_tags : emits P (choose_tags env m).
Proof.
  unfold choose_tags. apply emits_bind; [apply emits_load_members|].
  intro members. destruct (is_nil _); [|apply emits_ret].
  apply emits_bind.
  - unfold get_chat_administrators.
    apply emits_bind; [apply emits_api_call | intros _].
    apply emits_bind; [apply emits_emit, Hquery | intros _; apply emits_ret].
  - intro admins. destruct (is_nil _); [|apply emits_ret].
    apply emits_bind; [apply emits_reply | intros _; apply emits_ret].
Qed.

Lemma emits_respond : emits P (respond env m).
Proof.
  unfold respond. apply emits_bind; [apply emits_choose_tags|].
  intros [tags|]; [apply emits_send_tags | apply emits_ret].
Qed.

End Emits.

Section ResponsesMore.

Lemma emits_tag_all (env : Env) (u : Update) (P : event -> Prop) :
  (forall e, plain e -> P e) ->
  (forall t, P (EvReply (reply_of (message u) t))) ->
  (forall c, P (EvAdmins c)) ->
  emits P (tag_all env u).
Proof.
  intros Hplain Hreply Hquery. unfold tag_all.
  destruct (_ && _); [|apply emits_ret].
  destruct (mentions _ _).
  - apply emits_try.
    + now apply emits_respond.
    + intro e. now apply emits_on_telegram_error.
  - intro w. destruct (track_effects u w) as [evs [_ [Ht Hp]]].
    exists evs. split; [exact Ht|]. revert Hp. apply Forall_impl. exact Hplain.
Qed.

(** X12.  Every reply the handler delivers, on any path and on any
    platform, answers the incoming message and goes to its topic thread:
    it carries the message's id as reply target, and the message's thread
    id when the message is a topic message, no thread id otherwise. *)
Theorem replies_are_addressed (env : Env) (u : Update) (w : World) :
  exists evs,
    trace (snd (tag_all env u w)) = trace w ++ evs /\
    forall r, In (EvReply r) evs ->
      reply_to_message_id r = message_id (message u) /\
      reply_thread_id r
      = (if is_topic_message (message u)
         then message_thread_id (message u) else None).
Proof.
  destruct (emits_tag_all env u (addressed (message u))) with (w := w)
    as [evs [Ht Hp]].
  - intros [] He; try exact I; destruct He.
  - intro t. cbn. now split.
  - intro c. exact I.
  - exists evs. split; [exact Ht|]. intros r Hin.
    rewrite Forall_forall in Hp. exact (Hp _ Hin).
Qed.

Lemma try_telegram_from {A} (c c' : M A) (h : string -> M A) (w w' : World) :
  c w = c' w' -> try_telegram c h w = try_telegram c' h w'.
Proof. unfold try_telegram. now intros ->. Qed.

Lemma bind_bind {A B C} (c : M A) (k1 : A -> M B) (k2 : B -> M C) (w : World) :
  bind (bind c k1) k2 w = bind c (fun a => bind (k1 a) k2) w.
Proof. unfold bind. now destruct (c w) as [[a|e] w1]. Qed.

(** With stored members to tag, the response is the sending of their
    tags, from the world that has read the file. *)
Lemma respond_with_members (env : Env) (m : Message) (w : World) (R : dict) :
  stored w = Some R ->
  tag_members (dict_get_default R (str_of_int (chat_id (chat m))))
              (bot_username env) <> [] ->
  respond env m w
  = send_tags env m
      (tag_members (dict_get_default R (str_of_int (chat_id (chat m))))
                   (bot_username env))
      (after w [EvRead]).
Proof.
  intros Hs Hne. unfold respond.
  now rewrite (bind_ret_run _ _ _ _ _ (choose_tags_members env m w R Hs Hne)).
Qed.

(** Without stored members to tag, the response goes on from the world
    that has read the file and got the administrators. *)
Lemma respond_after_query (env : Env) (m : Message) (w : World) (R : dict) :
  stored w = Some R ->
  tag_members (dict_get_default R (str_of_int (chat_id (chat m))))
              (bot_username env) = [] ->
  fault env (api_calls w) = None ->
  exists c : M unit,
    emits (fun _ => True) c /\
    respond env m w
    = c {| fs := fs w; api_calls := S (api_calls w);
           trace := trace w ++ [EvRead; EvAdmins (chat_id (chat m))] |}.
Proof.
  intros Hs He Hok.
  exists (r <- (if is_nil (tag_admins (administrators env (chat_id (chat m)))
                                      (bot_username env))
                then reply env m no_members_notice ;; ret None
                else ret (Some (tag_admins
                                  (administrators env (chat_id (chat m)))
                                  (bot_username env)))) ;;
          match r with
          | None => ret tt
          | Some tagged_members => send_tags env m tagged_members
          end).
  split.
  - apply emits_bind.
    + destruct (is_nil _); [|apply emits_ret].
      apply emits_bind; [now apply emits_reply | intros _; apply emits_ret].
    + intros [tags|]; [now apply emits_send_tags | apply emits_ret].
  - unfold respond, choose_tags. rewrite bind_bind.
    unfold bind at 1. rewrite load_members_run, Hs, He. cbn [is_nil].
    rewrite bind_bind.
    assert (Hq : get_chat_administrators env (chat_id (chat m))
                   (after w [EvRead])
                 = (Ret (administrators env (chat_id (chat m))),
                    {| fs := fs w; api_calls := S (api_calls w);
                       trace := trace w ++ [EvRead; EvAdmins (chat_id (chat m))]
                    |})).
    { rewrite admins_ok by exact Hok. unfold after.
      cbn [fs api_calls trace]. now rewrite <- app_assoc. }
    now rewrite (bind_ret_run _ _ _ _ _ Hq).
Qed.

Lemma tag_members_nil_iff (l : list string) (bot : string) :
  tag_members l bot = [] <-> forall h, In h l -> h = bot.
Proof.
  induction l as [|x l IH]; cbn [tag_members].
  - split; [intros _ h [] | reflexivity].
  - destruct (String.eqb_spec x bot) as [->|Hne]; cbn [negb].
    + rewrite IH. split.
      * intros H h [<-|Hin]; [reflexivity | now apply H].
      * intros H h Hin. apply H. now right.
    + split; [discriminate|]. intro H. exfalso. apply Hne, H. now left.
Qed.

(** X13.  The administrators are a fallback only.  When some stored
    handle of the chat is not the bot's own, a mention is handled without
    an administrator query, whatever the platform does; when every stored
    handle is the bot's own, in particular when none is stored, the
    handler reads the file and then asks the platform for the
    administrators. *)
Theorem administrators_only_as_fallback (env : Env) (u : Update) (w : World)
    (R : dict) :
  is_mention env u -> stored w = Some R ->
  ((exists h,
      In h (dict_get_default R (str_of_int (chat_id (chat (message u))))) /\
      h <> bot_username env) ->
   exists evs,
     trace (snd (tag_all env u w)) = trace w ++ evs /\ Forall no_query evs) /\
  ((forall h,
      In h (dict_get_default R (str_of_int (chat_id (chat (message u))))) ->
      h = bot_username env) ->
   fault env (api_calls w) = None ->
   exists evs,
     trace (snd (tag_all env u w))
     = trace w ++ [EvRead; EvAdmins (chat_id (chat (message u)))] ++ evs).
Proof.
  intros Hm Hs. rewrite (tag_all_mention env u w Hm). split.
  - intros [h [Hin Hne]].
    assert (Htags : tag_members
                      (dict_get_default R
                         (str_of_int (chat_id (chat (message u)))))
                      (bot_username env) <> []).
    { intro E. apply Hne. exact (proj1 (tag_members_nil_iff _ _) E h Hin). }
    rewrite (try_telegram_from _ _ _ _ _
               (respond_with_members env (message u) w R Hs Htags)).
    destruct (emits_try no_query
                (send_tags env (message u)
                   (tag_members
                      (dict_get_default R
                         (str_of_int (chat_id (chat (message u)))))
                      (bot_username env)))
                (on_telegram_error env (message u)))
      with (w := after w [EvRead]) as [evs [Ht Hp]].
    + apply emits_send_tags; [now intros [] | intro t; exact I].
    + intro e. apply emits_on_telegram_error; [now intros [] | intro t; exact I].
    + exists (EvRead :: evs). rewrite Ht. cbn [after trace].
      rewrite <- app_assoc. split; [reflexivity|]. now constructor.
  - intros Hall Hok.
    destruct (respond_after_query env (message u) w R Hs
                (proj2 (tag_members_nil_iff _ _) Hall) Hok) as [c [Hc Hr]].
    rewrite (try_telegram_from _ _ _ _ _ Hr).
    destruct (emits_try (fun _ => True) c (on_telegram_error env (message u)))
      with (w := {| fs := fs w; api_calls := S (api_calls w);
                    trace := trace w ++
                      [EvRead; EvAdmins (chat_id (chat (message u)))] |})
      as [evs [Ht _]].
    + exact Hc.
    + intro e. now apply emits_on_telegram_error.
    + exists evs. rewrite Ht. cbn [trace]. now rewrite <- app_assoc.
Qed.

(** Sending stops at the first part the platform refuses: the parts
    before it have been delivered, each followed by the pause. *)
Lemma send_parts_stops (env : Env) (m : Message) (e : string)
    (parts : list string) :
  forall k w,
    k < length parts ->
    (forall i, i < k -> fault env (api_calls w + i) = None) ->
    fault env (api_calls w + k) = Some e ->
    send_parts env m parts w
    = (Raise (TelegramError e),
       {| fs := fs w; api_calls := api_calls w + S k;
          trace := trace w ++ part_events m (firstn k parts) |}).
Proof.
  induction parts as [|p parts IH]; intros k w Hk Hok Hbad;
    [cbn [length] in Hk; lia|].
  cbn [send_parts]. destruct k as [|k].
  - rewrite Nat.add_0_r in Hbad.
    rewrite (bind_raise_to _ _ _ _ _ (reply_fail env m p e w Hbad)).
    cbn [firstn part_events flat_map]. now rewrite app_nil_r, Nat.add_1_r.
  - assert (H0 : fault env (api_calls w) = None).
    { rewrite <- (Nat.add_0_r (api_calls w)). apply Hok. lia. }
    rewrite (bind_ret_run _ _ _ _ _ (reply_ok env m p w H0)).
    unfold sleep. unfold bind at 1. cbn [emit].
    rewrite (IH k); cbn [fs api_calls trace length] in *.
    + cbn [firstn part_events flat_map app]. rewrite <- !app_assoc.
      cbn [app]. f_equal. f_equal. lia.
    + lia.
    + intros i Hi. rewrite Nat.add_succ_comm. apply Hok. lia.
    + now rewrite Nat.add_succ_comm.
Qed.

(** X11.  When the platform refuses one part of a long response built
    from the stored members and then takes the failure reply, the parts
    before the refused one stay delivered, in order, the error is logged
    with its cause, the failure reply follows, the parts after the refused
    one are never sent, and the success record is not logged. *)
Theorem failure_between_parts (env : Env) (u : Update) (w : World) (R : dict)
    (k : nat) (e : string) :
  is_mention env u -> stored w = Some R ->
  tag_members (dict_get_default R (str_of_int (chat_id (chat (message u)))))
              (bot_username env) <> [] ->
  max_length
  < len (join (chr nl)
           (tag_members
              (dict_get_default R (str_of_int (chat_id (chat (message u)))))
              (bot_username env))) ->
  k < length (split_parts
                (tag_members
                   (dict_get_default R
                      (str_of_int (chat_id (chat (message u)))))
                   (bot_username env))) ->
  (forall i, i < k -> fault env (api_calls w + i) = None) ->
  fault env (api_calls w + k) = Some e ->
  fault env (api_calls w + S k) = None ->
  tag_all env u w
  = (Ret tt,
     {| fs := fs w; api_calls := api_calls w + S (S k);
        trace := trace w ++ [EvRead]
          ++ part_events (message u)
               (firstn k
                  (split_parts
                     (tag_members
                        (dict_get_default R
                           (str_of_int (chat_id (chat (message u)))))
                        (bot_username env))))
          ++ [EvLog ERROR ("Error tagging members: " +++ e);
              EvReply (reply_of (message u) failure_notice)] |}).
Proof.
  intros Hm Hs Hne Hlong Hk Hok Hbad Hnext.
  rewrite (tag_all_mention env u w Hm).
  rewrite (try_telegram_from _ _ _ _ _
             (respond_with_members env (message u) w R Hs Hne)).
  unfold try_telegram, send_tags.
  apply Nat.ltb_lt in Hlong. rewrite Hlong.
  rewrite (bind_raise_to _ _ _ _ _
             (send_parts_stops env (message u) e _ k (after w [EvRead])
                Hk Hok Hbad)).
  unfold on_telegram_error, logger_error. unfold bind at 1. cbn [emit].
  rewrite reply_ok by (cbn [after fs api_calls trace]; exact Hnext).
  cbn [after fs api_calls trace]. rewrite <- !app_assoc. cbn [app].
  f_equal. f_equal. lia.
Qed.

Lemma tag_prefix_injective (a b : string) : "@" +++ a = "@" +++ b -> a = b.
Proof. now intros [= ->]. Qed.

(** X14.  The bot never tags itself: its own handle behind an at-sign is
    in neither tag list, whatever is stored and whoever administers the
    chat. *)
Theorem bot_is_never_tagged (bot : string) (l : list string)
    (admins : list ChatMember) :
  ~ In ("@" +++ bot) (tag_members l bot) /\
  ~ In ("@" +++ bot) (tag_admins admins bot).
Proof.
  split.
  - rewrite tag_members_spec. intro H. apply in_map_iff in H.
    destruct H as [h [E Hin]]. apply tag_prefix_injective in E. subst h.
    apply filter_In in Hin. destruct Hin as [_ Hin].
    now rewrite String.eqb_refl in Hin.
  - intro H. apply tag_admins_spec in H.
    destruct H as [a [h [_ [_ [_ [_ [Hne E]]]]]]].
    apply tag_prefix_injective in E. congruence.
Qed.

End ResponsesMore.

(* ================================================================== *)
(** * The written file, and the handler as a whole *)

Section Whole.

Import Json.

Lemma ascii_only_append (a b : string) :
  ascii_only (a +++ b) = ascii_only a && ascii_only b.
Proof.
  induction a as [|c a IH]; cbn [String.append ascii_only]; [reflexivity|].
  now rewrite IH, andb_assoc.
Qed.

Lemma ascii_only_escape_char (c : ascii) : ascii_only (escape_char c) = true.
Proof. destruct c as [[] [] [] [] [] [] [] []]; reflexivity. Qed.

Lemma ascii_only_escape (s : string) : ascii_only (escape s) = true.
Proof.
  induction s as [|c s IH]; [reflexivity|]. cbn [escape].
  now rewrite ascii_only_append, ascii_only_escape_char, IH.
Qed.

Lemma ascii_only_encode_str (s : string) : ascii_only (encode_str s) = true.
Proof.
  unfold encode_str. cbn [ascii_only].
  now rewrite ascii_only_append, ascii_only_escape.
Qed.

Lemma ascii_only_join (sep : string) (l : list string) :
  ascii_only sep = true -> Forall (fun x => ascii_only x = true) l ->
  ascii_only (join sep l) = true.
Proof.
  intros Hsep H. induction H as [|x l Hx Hl IH]; [reflexivity|].
  destruct l as [|y l]; [exact Hx|].
  rewrite join_cons2, !ascii_only_append, Hx, Hsep. exact IH.
Qed.

Lemma ascii_only_encode_list (l : list string) :
  ascii_only (encode_list l) = true.
Proof.
  destruct l as [|x l]; [reflexivity|]. unfold encode_list.
  rewrite !ascii_only_append, ascii_only_join; [reflexivity | reflexivity |].
  apply Forall_map, Forall_forall. intros y _. apply ascii_only_encode_str.
Qed.

Lemma ascii_only_dumps (d : dict) : ascii_only (dumps d) = true.
Proof.
  destruct d as [|e d]; [reflexivity|]. unfold dumps.
  rewrite !ascii_only_append, ascii_only_join; [reflexivity | reflexivity |].
  apply Forall_map, Forall_forall. intros [k v] _. unfold encode_entry.
  cbn [fst snd].
  now rewrite !ascii_only_append, ascii_only_encode_str, ascii_only_encode_list.
Qed.

(** X15.  Whatever the handles and chat ids of the registry, the file
    written holds only printable ASCII characters and newlines: every
    other character is written as an escape. *)
Theorem saved_file_is_ascii (R : dict) (w : World) :
  exists content,
    fs (snd (save_members R w)) = Some content /\
    ascii_only content = true.
Proof.
  exists (dumps R). split; [reflexivity | apply ascii_only_dumps].
Qed.

(** On a platform that does not fail and with a file that decodes, a
    mention is always answered and the file is left alone. *)
Lemma mention_returns (env : Env) (u : Update) (w : World) (R : dict) :
  is_mention env u -> reliable env -> stored w = Some R ->
  exists w', tag_all env u w = (Ret tt, w') /\ fs w' = fs w.
Proof.
  intros Hm Hrel Hs.
  assert (Hsend : forall tags w1, exists w2,
             send_tags env (message u) tags w1 = (Ret tt, w2) /\
             fs w2 = fs w1).
  { intros tags w1.
    destruct (Nat.le_gt_cases (len (join (chr nl) tags)) max_length) as [H|H].
    - eexists. split; [apply (send_tags_short env _ Hrel tags w1 H)|].
      reflexivity.
    - eexists. split; [apply (send_tags_long env _ Hrel tags w1 H)|].
      reflexivity. }
  destruct (tag_members
              (dict_get_default R (str_of_int (chat_id (chat (message u)))))
              (bot_username env)) as [|t ts] eqn:Et.
  - destruct (tag_admins (administrators env (chat_id (chat (message u))))
                         (bot_username env)) as [|a ads] eqn:Ea.
    + eexists. split.
      * rewrite (tag_all_mention env u w Hm). unfold try_telegram, respond.
        rewrite (bind_ret_run _ _ _ _ _
                   (choose_tags_nobody env (message u) Hrel w R Hs Et Ea)).
        reflexivity.
      * reflexivity.
    + assert (Hne : tag_admins (administrators env (chat_id (chat (message u))))
                               (bot_username env) <> [])
        by (rewrite Ea; discriminate).
      pose proof (choose_tags_admins env (message u) Hrel w R Hs Et Hne) as Hc.
      destruct (Hsend (tag_admins
                         (administrators env (chat_id (chat (message u))))
                         (bot_username env))
                      {| fs := fs w; api_calls := S (api_calls w);
                         trace := trace w ++
                           [EvRead; EvAdmins (chat_id (chat (message u)))] |})
        as [w2 [Hs2 Hf2]].
      exists w2. split; [exact (tag_all_sends env u w _ _ _ Hm Hc Hs2)|].
      exact Hf2.
  - assert (Hne : tag_members
                    (dict_get_default R
                       (str_of_int (chat_id (chat (message u)))))
                    (bot_username env) <> [])
      by (rewrite Et; discriminate).
    pose proof (choose_tags_members env (message u) w R Hs Hne) as Hc.
    destruct (Hsend (tag_members
                       (dict_get_default R
                          (str_of_int (chat_id (chat (message u)))))
                       (bot_username env))
                    (after w [EvRead])) as [w2 [Hs2 Hf2]].
    exists w2. split; [exact (tag_all_sends env u w _ _ _ Hm Hc Hs2)|].
    exact Hf2.
Qed.

Lemma tag_all_keeps_store_ok (env : Env) (u : Update) (w : World) :
  reliable env -> store_ok w ->
  exists w', tag_all env u w = (Ret tt, w') /\ store_ok w'.
Proof.
  intros Hrel Hok.
  destruct (in_group (chat (message u)) && truthy (text (message u))) eqn:Eg.
  - destruct (mentions (bot_username env) (handle (text (message u)))) eqn:Em.
    + apply andb_true_iff in Eg. destruct Eg as [Eg Et].
      destruct Hok as [R [Hs Hl]].
      destruct (mention_returns env u w R (conj Eg (conj Et Em)) Hrel Hs)
        as [w' [E Hfs]].
      exists w'. split; [exact E|]. exists R. split; [|exact Hl].
      unfold stored in *. now rewrite Hfs.
    + destruct (track_keeps_store_ok u w Hok) as [w' [E Hok']].
      exists w'. split; [|exact Hok']. unfold tag_all. now rewrite Eg, Em.
  - exists w. split; [|exact Hok]. unfold tag_all. now rewrite Eg.
Qed.

(** X16.  On a platform that does not fail, and from a file that is absent
    or holds a registry without duplicates: the handler fails with the
    attribute error, changing nothing, on an update without a message; it
    returns on an update with a message, mention or not, and leaves the
    file in such a state; and after the client's loop has gone through any
    sequence of updates, failed ones reported by the error handler, the
    file still decodes to a registry in which no list holds a handle
    twice. *)
Theorem runtime_keeps_the_store (env : Env) (w : World) :
  reliable env -> store_ok w ->
  (forall r,
      match raw_message r with
      | None => tag_all_raw env r w = (Some AttributeError, w)
      | Some _ => exists w', tag_all_raw env r w = (None, w') /\ store_ok w'
      end) /\
  (forall rd rs, exists R,
      stored (process_updates rd env rs w) = Some R /\
      forall cid, NoDup (dict_get_default R cid)).
Proof.
  intros Hrel Hok.
  assert (Hone : forall r w0, store_ok w0 ->
            match raw_message r with
            | None => tag_all_raw env r w0 = (Some AttributeError, w0)
            | Some _ =>
                exists w', tag_all_raw env r w0 = (None, w') /\ store_ok w'
            end).
  { intros r w0 H0. unfold tag_all_raw.
    destruct (raw_message r) as [m|]; [|reflexivity].
    destruct (tag_all_keeps_store_ok env {| message := m |} w0 Hrel H0)
      as [w' [E H']].
    exists w'. now rewrite E. }
  split; [intro r; now apply Hone|].
  intros rd rs. revert w Hok.
  induction rs as [|r rs IH]; intros w Hok; cbn [process_updates].
  - destruct Hok as [R [Hs Hl]]. exists R. split; [exact Hs|].
    intro cid. now apply lists_nodup_get.
  - pose proof (Hone r w Hok) as H. destruct (raw_message r) as [m|] eqn:Em.
    + destruct H as [w' [-> H']]. now apply IH.
    + rewrite H. apply IH. exact Hok.
Qed.

End Whole.

(* ================================================================== *)
(** * Instances of the further properties *)

Section SamplesMore.


Lemma ignored_outside_groups_witness :
  (chat_type (chat (message (private_message dan "hey @MyBot"))) <> "group" /\
   chat_type (chat (message (private_message dan "hey @MyBot")))
   <> "supergroup") /\
  tag_all sample_env (private_message dan "hey @MyBot") sample_world
  = (Ret tt, sample_world).
Proof.
  assert (H : chat_type (chat (message (private_message dan "hey @MyBot")))
              <> "group" /\
              chat_type (chat (message (private_message dan "hey @MyBot")))
              <> "supergroup") by (split; discriminate).
  split; [exact H|].
  exact (ignored_outside_groups sample_env (private_message dan "hey @MyBot")
           sample_world (or_introl H)).
Defined.

Lemma first_message_creates_entry_witness :
  stored empty_world = Some [] /\
  trackable (sample_message dan "good morning") = true /\
  exists w',
    track_members (sample_message dan "good morning") empty_world
    = (Ret tt, w') /\
    stored w' = Some [("123", ["dan"])].
Proof.
  split; [reflexivity|]. split; [reflexivity|].
  exact (first_message_creates_entry (sample_message dan "good morning")
           empty_world [] eq_refl eq_refl eq_refl).
Defined.

Lemma new_member_is_appended_witness :
  stored sample_world = Some sample_registry /\
  trackable (sample_message dan "good morning") = true /\
  ~ In "dan" ["alice"; "bob"; "carol"] /\
  exists w' R',
    track_members (sample_message dan "good morning") sample_world
    = (Ret tt, w') /\ stored w' = Some R' /\
    dict_get R' "123" = Some (["alice"; "bob"; "carol"] ++ ["dan"]) /\
    map fst R' = map fst sample_registry /\
    forall k, k <> "123" -> dict_get R' k = dict_get sample_registry k.
Proof.
  assert (Hs : stored sample_world = Some sample_registry)
    by (vm_compute; reflexivity).
  assert (Hn : ~ In "dan" ["alice"; "bob"; "carol"])
    by (intros [H|[H|[H|[]]]]; discriminate).
  split; [exact Hs|]. split; [reflexivity|]. split; [exact Hn|].
  exact (new_member_is_appended (sample_message dan "good morning")
           sample_world sample_registry ["alice"; "bob"; "carol"]
           Hs eq_refl eq_refl Hn).
Defined.

Lemma tracking_only_appends_witness :
  stored sample_world = Some sample_registry /\
  exists w' R',
    handle_all track_members
      [sample_message dan "good morning";
       sample_message {| username := Some "erin"; is_bot := false |} "hello";
       sample_message dan "again"]
      sample_world = (Ret tt, w') /\
    stored w' = Some R' /\
    forall k, exists more,
      dict_get_default R' k = dict_get_default sample_registry k ++ more.
Proof.
  assert (Hs : stored sample_world = Some sample_registry)
    by (vm_compute; reflexivity).
  split; [exact Hs|].
  exact (tracking_only_appends _ sample_world sample_registry Hs).
Defined.

Lemma tracked_sender_is_tagged_witness :
  stored empty_world = Some [] /\
  trackable (sample_message dan "good morning") = true /\
  "dan" <> bot_username sample_env /\
  exists w1 R1,
    track_members (sample_message dan "good morning") empty_world
    = (Ret tt, w1) /\ stored w1 = Some R1 /\
    forall m' w2,
      stored w2 = Some R1 -> chat_id (chat m') = 123%Z ->
      exists tags,
        choose_tags sample_env m' w2 = (Ret (Some tags), after w2 [EvRead]) /\
        In "@dan" tags.
Proof.
  assert (Hne : "dan" <> bot_username sample_env) by discriminate.
  split; [reflexivity|]. split; [reflexivity|]. split; [exact Hne|].
  exact (tracked_sender_is_tagged sample_env
           (sample_message dan "good morning") empty_world []
           eq_refl eq_refl Hne).
Defined.

Lemma packing_is_greedy_witness :
  Forall fits (map (String.append "@") many_members) /\
  split_parts (map (String.append "@") many_members)
  = map (join (chr nl)) (pack (map (String.append "@") many_members)) /\
  length (pack (map (String.append "@") many_members)) = 2 /\
  greedy (pack (map (String.append "@") many_members)).
Proof.
  assert (Hf : Forall fits (map (String.append "@") many_members))
    by (apply fitsb_fits; vm_compute; reflexivity).
  destruct (packing_is_greedy _ Hf) as [H1 [_ [_ H4]]].
  split; [exact Hf|]. split; [exact H1|]. split; [|exact H4].
  vm_compute. reflexivity.
Defined.

Lemma long_list_has_two_parts_witness :
  max_length < len (join (chr nl) ["@a"; "@" +++ replicate 4000 "b"]) /\
  2 <= length (split_parts ["@a"; "@" +++ replicate 4000 "b"]).
Proof.
  assert (H : max_length
              < len (join (chr nl) ["@a"; "@" +++ replicate 4000 "b"]))
    by (apply Nat.ltb_lt; vm_compute; reflexivity).
  split; [exact H | exact (long_list_has_two_parts _ H)].
Defined.

Lemma oversized_first_entry_witness :
  max_length <= len ("@" +++ replicate 4000 "b") /\
  exists parts,
    split_parts ["@" +++ replicate 4000 "b"; "@a"] = "" :: parts.
Proof.
  assert (H : max_length <= len ("@" +++ replicate 4000 "b"))
    by (apply Nat.leb_le; vm_compute; reflexivity).
  split; [exact H | exact (oversized_first_entry _ ["@a"] H)].
Defined.

Lemma failure_between_parts_witness :
  is_mention stutter_env (sample_message dan "hey @MyBot, wake them up") /\
  stored (world_of crowded_registry) = Some crowded_registry /\
  fault stutter_env 1 = Some "Flood control" /\
  fault stutter_env 2 = None /\
  replies (trace (snd (tag_all stutter_env
                         (sample_message dan "hey @MyBot, wake them up")
                         (world_of crowded_registry))))
  = firstn 1 (split_parts (map (String.append "@") many_members))
    ++ [failure_notice].
Proof.
  assert (Hm : is_mention stutter_env
                 (sample_message dan "hey @MyBot, wake them up"))
    by (repeat split; reflexivity).
  assert (Hs : stored (world_of crowded_registry) = Some crowded_registry)
    by (apply stored_saved; repeat constructor; intros []).
  assert (Hok : forall i, i < 1 ->
            fault stutter_env (api_calls (world_of crowded_registry) + i)
            = None)
    by (intros i Hi; destruct i; [reflexivity | lia]).
  split; [exact Hm|]. split; [exact Hs|]. split; [reflexivity|].
  split; [reflexivity|].
  rewrite (failure_between_parts stutter_env
             (sample_message dan "hey @MyBot, wake them up")
             (world_of crowded_registry) crowded_registry 1 "Flood control"
             Hm Hs).
  - vm_compute. reflexivity.
  - vm_compute. discriminate.
  - apply Nat.ltb_lt. vm_compute. reflexivity.
  - apply Nat.ltb_lt. vm_compute. reflexivity.
  - exact Hok.
  - reflexivity.
  - reflexivity.
Defined.

Lemma administrators_only_as_fallback_witness :
  is_mention sample_env (sample_message dan "hey @MyBot") /\
  stored sample_world = Some sample_registry /\
  (exists evs,
      trace (snd (tag_all sample_env (sample_message dan "hey @MyBot")
                          sample_world))
      = trace sample_world ++ evs /\ Forall no_query evs) /\
  stored empty_world = Some [] /\
  (exists evs,
      trace (snd (tag_all sample_env (sample_message dan "hey @MyBot")
                          empty_world))
      = trace empty_world ++ [EvRead; EvAdmins 123] ++ evs).
Proof.
  assert (Hm : is_mention sample_env (sample_message dan "hey @MyBot"))
    by (repeat split; reflexivity).
  assert (Hs : stored sample_world = Some sample_registry)
    by (vm_compute; reflexivity).
  split; [exact Hm|]. split; [exact Hs|]. split.
  - apply (proj1 (administrators_only_as_fallback sample_env
                    (sample_message dan "hey @MyBot") sample_world
                    sample_registry Hm Hs)).
    exists "alice". split; [left; reflexivity | discriminate].
  - split; [reflexivity|].
    apply (proj2 (administrators_only_as_fallback sample_env
                    (sample_message dan "hey @MyBot") empty_world
                    [] Hm eq_refl)).
    + intros h [].
    + reflexivity.
Defined.

Lemma runtime_keeps_the_store_witness :
  reliable sample_env /\ store_ok empty_world /\
  tag_all_raw sample_env {| raw_message := None |} empty_world
  = (Some AttributeError, empty_world) /\
  exists R,
    stored (process_updates sample_rendering sample_env
              [ {| raw_message := Some (message (sample_message dan "good morning")) |};
                {| raw_message := None |};
                {| raw_message := Some (message (sample_message dan "hey @MyBot")) |};
                {| raw_message := Some (message (private_message dan "hello")) |} ]
              empty_world) = Some R /\
    forall cid, NoDup (dict_get_default R cid).
Proof.
  assert (Hrel : reliable sample_env) by (intro n; reflexivity).
  assert (Hok : store_ok empty_world)
    by (exists []; split; [reflexivity | constructor]).
  split; [exact Hrel|]. split; [exact Hok|].
  destruct (runtime_keeps_the_store sample_env empty_world Hrel Hok)
    as [H1 H2].
  split; [exact (H1 {| raw_message := None |}) | apply H2].
Defined.

End SamplesMore.
